(** * sc_array: a growable array (src/array/sc_array.h)

    A shallow embedding of the macros of [sc_array.h] and the properties
    of the capacity / growth management and of the mutation operations.

    Conventions of the embedding.
    - [size_t] is the 64-bit unsigned type of an LP64 platform: a value is
      a [Z] in [0, SIZE_MAX] and the arithmetic of the macros is written
      with its wrap-around ([wrap]).
    - The heap block behind [elems] is a list of slots.  A slot that was
      never written is [None] (indeterminate); [elems = None] is the NULL
      pointer.  The array is the only owner of its block, so the block is
      stored in the array value itself.
    - An operation whose behaviour is undefined in C (a failed [assert],
      an access outside the block, a read through NULL, a read of an
      indeterminate slot) returns [None].
    - [realloc] may fail at any call: the outcome is an argument ([ok]) of
      the operations that call it.
    - An index is an integer of at most 64 bits; where the code compares
      it with a [size_t] it is converted to [size_t].
    - The element given to [sc_array_add] and the index given to
      [sc_array_del] are values.  The index of [sc_array_del_unordered]
      is an expression, since the macro evaluates it in the expression
      that decrements the size. *)

From Stdlib Require Import ZArith Lia.
From stdpp Require Import base option list numbers sorting.

Local Open Scope Z_scope.

(** ** [size_t] *)

Definition SIZE_MAX : Z := 2 ^ 64 - 1.

(** Reduction of an arithmetic result to [size_t]. *)
Definition wrap (z : Z) : Z := z mod 2 ^ 64.

(** ** The array and its operations *)

(** The slots of a heap block of elements of type [T]. *)
Abbreviation buffer T := (list (option T)).

Section sc_array.
Context {T : Type}.

(** The size of an element in bytes, the configured [SC_ARRAY_MAX] (by
    default [SIZE_MAX]) and the conversion of an element to [size_t]
    (for the arithmetic element types). *)
Variable sizeof_T : Z.
Variable SC_ARRAY_MAX : Z.
Variable to_size_t : T -> Z.

(** [struct sc_array_##name { bool oom; size_t cap; size_t size;
    T *elems; }] *)
Record sc_array : Type := mk_array {
  oom : bool;
  cap : Z;
  size : Z;
  elems : option (buffer T)
}.

Definition set_oom (b : bool) (a : sc_array) : sc_array :=
  {| oom := b; cap := cap a; size := size a; elems := elems a |}.

Definition set_size (n : Z) (a : sc_array) : sc_array :=
  {| oom := oom a; cap := cap a; size := n; elems := elems a |}.

Definition set_elems (p : option (buffer T)) (a : sc_array) : sc_array :=
  {| oom := oom a; cap := cap a; size := size a; elems := p |}.

(** [sc_array_init]: [memset] of the whole struct to zero. *)
Definition sc_array_init (a : sc_array) : sc_array :=
  {| oom := false; cap := 0; size := 0; elems := None |}.

(** [sc_array_term]: [sc_array_free((a)->elems); sc_array_init(a)].
    The block is given back to the allocator and the array forgets it. *)
Definition sc_array_term (a : sc_array) : sc_array :=
  sc_array_init a.

(** [sc_array_realloc(p, nbytes)] ([realloc]).  On failure the result is
    NULL and the old block stays as it is.  On success the new block has
    room for [nbytes / sizeof_T] whole elements, the old contents are
    kept up to the smaller of the two sizes and the new slots are
    indeterminate. *)
Definition sc_array_realloc (ok : bool) (p : option (buffer T)) (nbytes : Z)
  : option (buffer T) :=
  if ok then Some (resize (Z.to_nat (nbytes / sizeof_T)) None (default [] p))
  else None.

(** Control leaves the [do { ... } while (0)] body either by [break] or
    by reaching the next statement. *)
Inductive flow : Type :=
| Break (a : sc_array)
| Continue (a : sc_array).

(** [sc_array_add], line 83: [_max], the largest element count. *)
Definition array_max : Z := SC_ARRAY_MAX / sizeof_T.

(** Line 88: the check that refuses to grow. *)
Definition grow_refused (c : Z) : bool := c >? array_max / 2.

(** Line 92: the new capacity [_cap]. *)
Definition grow_cap (c : Z) : Z := if c =? 0 then 8 else wrap (c * 2).

(** Line 94: the byte count given to [sc_array_realloc]. *)
Definition grow_bytes (c : Z) : Z := wrap (grow_cap c * sizeof_T).

(** [sc_array_add], lines 83-101: the growth step. *)
Definition sc_array_grow (ok : bool) (a : sc_array) : flow :=
  if cap a =? size a then
    if grow_refused (cap a) then Break (set_oom true a)
    else
      let _cap := grow_cap (cap a) in
      match sc_array_realloc ok (elems a) (grow_bytes (cap a)) with
      | None => Break (set_oom true a)
      | Some _p =>
          Continue {| oom := oom a; cap := _cap; size := size a;
                      elems := Some _p |}
      end
  else Continue a.

(** [sc_array_add], lines 102-103:
    [(a)->oom = false; (a)->elems[(a)->size++] = k]. *)
Definition sc_array_store (a : sc_array) (k : T) : option sc_array :=
  match elems a with
  | None => None
  | Some blk =>
      if (0 <=? size a) && (size a <? Z.of_nat (length blk)) then
        Some {| oom := false; cap := cap a; size := wrap (size a + 1);
                elems := Some (<[Z.to_nat (size a) := Some k]> blk) |}
      else None
  end.

(** [sc_array_add(a, k)]. *)
Definition sc_array_add (ok : bool) (a : sc_array) (k : T)
  : option sc_array :=
  match sc_array_grow ok a with
  | Break a' => Some a'
  | Continue a' => sc_array_store a' k
  end.

(** [sc_array_clear]. *)
Definition sc_array_clear (a : sc_array) : sc_array :=
  {| oom := false; cap := 0; size := 0; elems := elems a |}.

(** [sc_array_oom], [sc_array_size]. *)
Definition sc_array_oom (a : sc_array) : bool := oom a.
Definition sc_array_size (a : sc_array) : Z := size a.

(** [sc_array_at(a, i)]: [(a)->elems[i]] read as a value. *)
Definition sc_array_at (a : sc_array) (i : Z) : option T :=
  match elems a with
  | None => None
  | Some blk => if 0 <=? i then mjoin (blk !! Z.to_nat i) else None
  end.

(** [sc_array_last(a)]: [(a)->elems[(a)->size - 1]]. *)
Definition sc_array_last (a : sc_array) : option T :=
  sc_array_at a (wrap (size a - 1)).

(** [memmove(&blk[dst], &blk[src], n elements)] inside one block. *)
Definition memmove (blk : buffer T) (dst src : Z) (n : Z)
  : option (buffer T) :=
  if (0 <=? dst) && (0 <=? src) && (0 <=? n)
     && (dst + n <=? Z.of_nat (length blk))
     && (src + n <=? Z.of_nat (length blk))
  then Some (take (Z.to_nat dst) blk
             ++ take (Z.to_nat n) (drop (Z.to_nat src) blk)
             ++ drop (Z.to_nat (dst + n)) blk)
  else None.

(** [sc_array_del], line 145: the shift count [_cnt]. *)
Definition del_cnt (a : sc_array) (i : Z) : Z := wrap (size a - i - 1).

(** [sc_array_del(a, i)].  The [assert] compares in [size_t], to which
    the index is converted.  The byte count given to [memmove] is
    [_cnt] times the element size, in [size_t]; it moves that many
    bytes, that is [bytes / sizeof_T] elements. *)
Definition sc_array_del (a : sc_array) (i : Z) : option sc_array :=
  if wrap i <? size a then
    let _cnt := del_cnt a i in
    let moved :=
      if _cnt >? 0 then
        match elems a with
        | None => None
        | Some blk =>
            Some <$> memmove blk i (i + 1) (wrap (_cnt * sizeof_T) / sizeof_T)
        end
      else Some (elems a) in
    match moved with
    | None => None
    | Some p =>
        Some {| oom := oom a; cap := cap a; size := wrap (size a - 1);
                elems := p |}
    end
  else None.

(** The index argument of [sc_array_del_unordered] is an expression,
    which the macro pastes at each place where it uses the index: a
    value that does not depend on the array ([Val i]), or an expression
    that reads [(a)->size] ([OfSize f], whose value is [f] of the size
    it reads), such as [(a)->size - 1]. *)
Inductive index : Type :=
| Val (i : Z)
| OfSize (f : Z -> Z).

Definition index_value (ix : index) (sz : Z) : Z :=
  match ix with
  | Val i => i
  | OfSize f => f sz
  end.

Definition reads_size (ix : index) : bool :=
  match ix with
  | Val _ => false
  | OfSize _ => true
  end.

(** The expression [(a)->size - 1], the last valid index. *)
Definition size_minus_one : index := OfSize (fun sz => wrap (sz - 1)).

(** Line 166, [(a)->elems[i] = (a)->elems[(--(a)->size)]], where the
    index has the value [i]. *)
Definition swap_last (a : sc_array) (i : Z) : option sc_array :=
  let size' := wrap (size a - 1) in
  match elems a with
  | None => None
  | Some blk =>
      match blk !! Z.to_nat size' with
      | None => None
      | Some v =>
          if (0 <=? i) && (i <? Z.of_nat (length blk)) then
            Some {| oom := oom a; cap := cap a; size := size';
                    elems := Some (<[Z.to_nat i := v]> blk) |}
          else None
      end
  end.

(** [sc_array_del_unordered(a, i)].  The [assert] of line 165 is a
    statement of its own and reads the index at the size before the
    decrement.  In line 166 the index is evaluated in the expression
    that decrements the size, unsequenced with the decrement: with an
    index that reads the size the behaviour is undefined. *)
Definition sc_array_del_unordered (a : sc_array) (ix : index)
  : option sc_array :=
  if wrap (index_value ix (size a)) <? size a then
    if reads_size ix then None
    else swap_last a (index_value ix (size a))
  else None.

(** Line 166 as a compiler runs it that decrements the size before it
    evaluates the index, one of the orders that the undefined behaviour
    leaves to it: the index reads the decremented size. *)
Definition del_unordered_decrement_first (a : sc_array) (ix : index)
  : option sc_array :=
  if wrap (index_value ix (size a)) <? size a then
    swap_last a (index_value ix (wrap (size a - 1)))
  else None.

(** [sc_array_del_last(a)]. *)
Definition sc_array_del_last (a : sc_array) : option sc_array :=
  if size a =? 0 then None
  else Some {| oom := oom a; cap := cap a; size := wrap (size a - 1);
               elems := elems a |}.

(** [sc_array_foreach(a, elem)]: the values bound to [elem], in the
    order of the traversal, for a body that runs to its end.  The loop
    counter [_i] runs from 0 while [_i != (a)->size]. *)
Fixpoint foreach_from (a : sc_array) (n : nat) (_i : Z)
  : option (list T) :=
  match n with
  | O => Some []
  | S n' =>
      match sc_array_at a _i with
      | None => None
      | Some v => cons v <$> foreach_from a n' (_i + 1)
      end
  end.

Definition sc_array_foreach (a : sc_array) : option (list T) :=
  foreach_from a (Z.to_nat (size a)) 0.

(** *** [qsort] (libc)

    [qsort(base, nmemb, width, compar)] sorts [nmemb] objects of
    [width] bytes each, the first of them at [base]; [compar] gets the
    addresses of two objects and reads an element of type [T] at each.
    At the granularity of slots an object is a group of
    [width / sizeof_T] slots, which asks for [width] to be a positive
    multiple of [sizeof_T], and its key is its first slot.  With fewer
    than two objects nothing is compared and nothing moves. *)
Fixpoint chunks (n m : nat) (l : buffer T) : list (buffer T) :=
  match n with
  | O => []
  | S n' => take m l :: chunks n' m (drop m l)
  end.

Definition keyed (o : buffer T) : option (T * buffer T) :=
  match o with
  | Some k :: _ => Some (k, o)
  | _ => None
  end.

Fixpoint insert_obj (compar : T -> T -> Z) (x : T * buffer T)
  (l : list (T * buffer T)) : list (T * buffer T) :=
  match l with
  | [] => [x]
  | y :: l' =>
      if compar (fst x) (fst y) <=? 0 then x :: y :: l'
      else y :: insert_obj compar x l'
  end.

Definition sort_objs (compar : T -> T -> Z) (l : list (T * buffer T))
  : list (T * buffer T) :=
  foldr (insert_obj compar) [] l.

Definition qsort (base : buffer T) (nmemb width : Z) (compar : T -> T -> Z)
  : option (buffer T) :=
  if nmemb <=? 1 then Some base
  else if (0 <? width) && (width mod sizeof_T =? 0) then
    let m := Z.to_nat (width / sizeof_T) in
    let n := Z.to_nat nmemb in
    if (n * m <=? length base)%nat then
      match mapM keyed (chunks n m base) with
      | None => None
      | Some objs =>
          Some (concat (snd <$> sort_objs compar objs)
                ++ drop (n * m) base)
      end
    else None
  else None.

(** [sc_array_sort(a, cmp)]:
    [qsort((a)->elems, (a)->size, *(a)->elems, cmp)].  The third
    argument is the value of the first element, converted to
    [size_t]. *)
Definition sc_array_sort (a : sc_array) (cmp : T -> T -> Z)
  : option sc_array :=
  match elems a with
  | None => None
  | Some blk =>
      match blk !! 0%nat with
      | Some (Some v0) =>
          match qsort blk (size a) (to_size_t v0) cmp with
          | None => None
          | Some blk' => Some (set_elems (Some blk') a)
          end
      | _ => None
      end
  end.

(** *** Array states, runs of operations *)

(** The slots behind [elems]; none for the NULL pointer. *)
Definition slots_of (a : sc_array) : buffer T := default [] (elems a).

(** A well-formed array (invariant I1 of the data model): the fields are
    counts, [size <= cap], the block behind [elems] has room for [cap]
    elements, its byte size is a [size_t], and the first [size] slots
    have been written. *)
Definition wf (a : sc_array) : Prop :=
  0 <= size a <= cap a /\
  match elems a with
  | None => cap a = 0
  | Some blk =>
      cap a <= Z.of_nat (length blk) /\
      Z.of_nat (length blk) * sizeof_T <= SIZE_MAX /\
      Forall is_Some (take (Z.to_nat (size a)) blk)
  end.

(** What a caller can see of the bookkeeping: flag, capacity, size. *)
Definition observe (a : sc_array) : bool * Z * Z := (oom a, cap a, size a).

(** Capacity zero goes with the NULL pointer. *)
Definition no_block_at_zero (a : sc_array) : Prop :=
  0 <= cap a /\ (cap a = 0 -> elems a = None).

(** Two arrays that a caller cannot tell apart by appending: they show
    the same flag, capacity and size, and either have to grow from
    capacity zero at the next append or have blocks of the same length
    with the same first [size] slots. *)
Definition same_growth (a b : sc_array) : Prop :=
  observe a = observe b /\
  ((cap a = 0 /\ size a = 0) \/
   (length (slots_of a) = length (slots_of b) /\
    take (Z.to_nat (size a)) (slots_of a)
      = take (Z.to_nat (size a)) (slots_of b))).

(** The operations that change an array. *)
Inductive op : Type :=
| Init
| Add (ok : bool) (k : T)
| Del (i : Z)
| DelUnordered (i : Z)
| DelLast
| Clear
| Term.

Definition step (o : op) (a : sc_array) : option sc_array :=
  match o with
  | Init => Some (sc_array_init a)
  | Add ok k => sc_array_add ok a k
  | Del i => sc_array_del a i
  | DelUnordered i => sc_array_del_unordered a (Val i)
  | DelLast => sc_array_del_last a
  | Clear => Some (sc_array_clear a)
  | Term => Some (sc_array_term a)
  end.

Fixpoint run (os : list op) (a : sc_array) : option sc_array :=
  match os with
  | [] => Some a
  | o :: os' =>
      match step o a with
      | None => None
      | Some a' => run os' a'
      end
  end.

Definition is_clear (o : op) : bool :=
  match o with Clear => true | _ => false end.

(** The operations that write the capacity field to zero. *)
Definition is_reset (o : op) : bool :=
  match o with Init | Clear | Term => true | _ => false end.

(** The deletes and pop. *)
Definition is_delete (o : op) : bool :=
  match o with Del _ | DelUnordered _ | DelLast => true | _ => false end.

(** The operations that write the [elems] field to NULL. *)
Definition is_release (o : op) : bool :=
  match o with Init | Term => true | _ => false end.

(** The observations after each of a row of appends; the row stops at
    an append whose behaviour is undefined. *)
Fixpoint add_trace (l : list (bool * T)) (a : sc_array)
  : list (option (bool * Z * Z * option (list T))) :=
  match l with
  | [] => []
  | (ok, k) :: l' =>
      match sc_array_add ok a k with
      | None => [None]
      | Some a' =>
          Some (observe a', sc_array_foreach a') :: add_trace l' a'
      end
  end.

(** [appended a es a']: the elements [es] were appended to [a] one after
    the other, each append succeeded (the flag was false after it), and
    the array is then [a']. *)
Inductive appended : sc_array -> list T -> sc_array -> Prop :=
| appended_nil a : appended a [] a
| appended_cons a ok k a1 es a' :
    sc_array_add ok a k = Some a1 ->
    oom a1 = false ->
    appended a1 es a' ->
    appended a (k :: es) a'.

(** The same as a function, with an allocator that never fails. *)
Fixpoint add_all (es : list T) (a : sc_array) : option sc_array :=
  match es with
  | [] => Some a
  | k :: es' =>
      match sc_array_add true a k with
      | None => None
      | Some a1 => if oom a1 then None else add_all es' a1
      end
  end.

End sc_array.

Arguments sc_array : clear implicits.
Arguments flow : clear implicits.
Arguments op : clear implicits.

(** ** The instantiation [sc_array_def(int, int)]

    [int] has four bytes; an [int] converts to [size_t] modulo [2 ^ 64];
    [SC_ARRAY_MAX] has its default, [SIZE_MAX]. *)
Module sc_array_int.

Definition sizeof_int : Z := 4.

Definition t : Type := sc_array Z.

Definition fresh : t := sc_array_init (mk_array false 0 0 None).

Definition add (ok : bool) (a : t) (k : Z) : option t :=
  sc_array_add sizeof_int SIZE_MAX ok a k.

Definition run (os : list (op Z)) (a : t) : option t :=
  run sizeof_int SIZE_MAX os a.

(** A comparator for [qsort]: negative, zero or positive. *)
Definition cmp_int (x y : Z) : Z :=
  match x ?= y with
  | Lt => -1
  | Eq => 0
  | Gt => 1
  end.

Definition sort (a : t) : option t :=
  sc_array_sort sizeof_int wrap a cmp_int.

(** Eight slots, all in use. *)
Definition full8 : t :=
  mk_array false 8 8 (Some (Some <$> [10; 11; 12; 13; 14; 15; 16; 17])).

(** Five elements in a block of eight. *)
Definition five : t :=
  mk_array false 8 5
    (Some ((Some <$> [10; 20; 30; 40; 50]) ++ [None; None; None])).

(** Nine elements after the growth from eight slots to sixteen. *)
Definition nine : t :=
  mk_array false 16 9
    (Some ((Some <$> [0; 1; 2; 3; 4; 5; 6; 7; 8])
           ++ [None; None; None; None; None; None; None])).

(** [five] after the append of 60. *)
Definition six : t :=
  mk_array false 8 6
    (Some ((Some <$> [10; 20; 30; 40; 50; 60]) ++ [None; None])).

(** The array after two appends, a delete, a clear and an append. *)
Definition mixed_ops : list (op Z) :=
  [Add true 1; Add true 2; Del 0; Clear; Add true 3].

Definition mixed : t :=
  mk_array false 8 1
    (Some ([Some 3; Some 2] ++ [None; None; None; None; None; None])).

(** Nine appends, none of which fails. *)
Definition nine_adds : list (op Z) :=
  Add true <$> [0; 1; 2; 3; 4; 5; 6; 7; 8].


(** The elements 8 and 1 in a block whose next two slots keep the 0 of
    two elements popped before. *)
Definition two_of_four : t :=
  mk_array false 8 2
    (Some ((Some <$> [8; 1; 0; 0]) ++ [None; None; None; None])).

End sc_array_int.

(** ** Properties *)

Section theory.
Context {T : Type}.
Variable sizeof_T : Z.
Variable SC_ARRAY_MAX : Z.

Local Abbreviation array := (sc_array T).
Local Abbreviation MAX := (array_max sizeof_T SC_ARRAY_MAX).
Local Abbreviation grow := (sc_array_grow sizeof_T SC_ARRAY_MAX).
Local Abbreviation add := (sc_array_add sizeof_T SC_ARRAY_MAX).
Local Abbreviation del := (sc_array_del sizeof_T).

Implicit Types (a : array) (k : T) (ok : bool) (i : Z) (blk : buffer T).

(** *** Arithmetic of [size_t] *)

Lemma wrap_small z : 0 <= z <= SIZE_MAX -> wrap z = z.
Proof. unfold wrap, SIZE_MAX. intros Hz. apply Z.mod_small. lia. Qed.

Lemma wrap_range z : 0 <= wrap z <= SIZE_MAX.
Proof.
  unfold wrap, SIZE_MAX.
  pose proof (Z.mod_pos_bound z (2 ^ 64) ltac:(lia)). lia.
Qed.

(** *** The growth step and the store *)


Lemma grow_break ok a a' :
  grow ok a = Break a' -> a' = set_oom true a /\ cap a = size a.
Proof.
  unfold sc_array_grow, sc_array_realloc.
  destruct (Z.eqb_spec (cap a) (size a)); [|done].
  destruct (grow_refused _ _ _); [naive_solver|].
  destruct ok; naive_solver.
Qed.

(** Unordered delete at an index that is a value. *)
Lemma del_unordered_Val a i :
  sc_array_del_unordered a (Val i)
  = if wrap i <? size a then swap_last a i else None.
Proof. done. Qed.

Lemma store_oom a k a' : sc_array_store a k = Some a' -> oom a' = false.
Proof.
  unfold sc_array_store. intros H.
  destruct (elems a); [|done].
  destruct (_ && _); by simplify_eq.
Qed.

Lemma add_failed ok a k a' :
  add ok a k = Some a' -> oom a' = true -> a' = set_oom true a.
Proof.
  unfold sc_array_add. intros Hadd Hoom.
  destruct (grow ok a) as [b|b] eqn:Hg.
  - simplify_eq. by apply grow_break in Hg as [-> _].
  - apply store_oom in Hadd. congruence.
Qed.

(** The traversal reads the size and the block only. *)
Lemma foreach_from_ext a b n i :
  elems a = elems b -> foreach_from a n i = foreach_from b n i.
Proof.
  intros He. revert i. induction n as [|n IH]; intros i; [done|].
  simpl. unfold sc_array_at. rewrite He, IH. done.
Qed.

Lemma foreach_ext a b :
  size a = size b -> elems a = elems b ->
  sc_array_foreach a = sc_array_foreach b.
Proof.
  intros Hs He. unfold sc_array_foreach. rewrite Hs.
  by apply foreach_from_ext.
Qed.

(** C1: append failure atomicity.  If the flag is true after an append,
    size, capacity and the block behind [elems] (so every stored
    element) are what they were before the call; in particular, when
    the allocation needed to grow a full array of capacity 8 fails, the
    append sets the flag and leaves size 8, capacity 8 and the contents
    as they were. *)
Theorem sc_array_add_failure_atomic ok a k :
  (forall a', add ok a k = Some a' -> oom a' = true ->
     size a' = size a /\ cap a' = cap a /\ elems a' = elems a /\
     sc_array_foreach a' = sc_array_foreach a) /\
  (cap a = 8 -> size a = 8 -> ok = false ->
     exists a', add ok a k = Some a' /\ oom a' = true /\
       size a' = 8 /\ cap a' = 8 /\ elems a' = elems a /\
       sc_array_foreach a' = sc_array_foreach a).
Proof.
  split.
  - intros a' Hadd Hoom. rewrite (add_failed _ _ _ _ Hadd Hoom).
    repeat split. by apply foreach_ext.
  - intros Hc Hs ->. exists (set_oom true a).
    repeat split; try done; [|by apply foreach_ext].
    unfold sc_array_add, sc_array_grow, sc_array_realloc.
    rewrite Hc, Hs. simpl. by destruct (grow_refused _ _ _).
Qed.

(** *** Pop and ordered delete at the last index *)

(** C10: on an array with [size >= 1], ordered delete at the index
    [size - 1] has shift count zero, moves nothing, and gives the state
    that pop gives: size one less, block, capacity and flag as
    before. *)
Theorem sc_array_del_at_last_is_del_last a :
  1 <= size a -> size a <= SIZE_MAX ->
  del_cnt a (size a - 1) = 0 /\
  del a (size a - 1) = sc_array_del_last a /\
  sc_array_del_last a =
    Some {| oom := oom a; cap := cap a; size := size a - 1;
            elems := elems a |}.
Proof.
  intros H1 Hmax.
  assert (del_cnt a (size a - 1) = 0) as Hcnt.
  { unfold del_cnt. replace (size a - (size a - 1) - 1) with 0 by lia.
    done. }
  split; [done|]. unfold sc_array_del, sc_array_del_last.
  rewrite Hcnt. simpl. rewrite (wrap_small (size a - 1)) by lia.
  destruct (Z.ltb_spec (size a - 1) (size a)); [|lia].
  destruct (Z.eqb_spec (size a) 0); [lia|]. done.
Qed.

(** *** The traversal *)

Lemma slots_of_Some o c s blk : slots_of (mk_array o c s (Some blk)) = blk.
Proof. done. Qed.

Lemma at_slots a i :
  0 <= i -> sc_array_at a i = mjoin (slots_of a !! Z.to_nat i).
Proof.
  intros Hi. unfold sc_array_at, slots_of.
  destruct (elems a); simpl.
  - by destruct (Z.leb_spec 0 i); [|lia].
  - done.
Qed.

(** A traversal of [n] slots from [i] gives [l] exactly when these
    slots hold the values of [l]. *)
Lemma foreach_from_Some a n i l :
  0 <= i ->
  foreach_from a n i = Some l <->
  take n (drop (Z.to_nat i) (slots_of a)) = Some <$> l /\ length l = n.
Proof.
  revert i l. induction n as [|n IH]; intros i l Hi; simpl.
  - split.
    + by intros [= <-].
    + intros [_ Hl]. by destruct l.
  - rewrite at_slots by done.
    destruct (slots_of a !! Z.to_nat i) as [[v|]|] eqn:Hlk; simpl.
    + rewrite (drop_S _ _ _ Hlk). simpl.
      assert (Z.to_nat (i + 1) = S (Z.to_nat i)) as Hn by lia.
      split.
      * destruct (foreach_from a n (i + 1)) as [l'|] eqn:Hr; [|done].
        intros [= <-]. apply IH in Hr as [Ht <-]; [|lia].
        rewrite Hn in Ht. by rewrite Ht.
      * intros [Ht Hl]. destruct l as [|x l]; simplify_eq/=.
        rewrite (proj2 (IH (i + 1) l ltac:(lia))); [done|].
        by rewrite Hn.
    + rewrite (drop_S _ _ _ Hlk). simpl.
      split; [done|]. intros [Ht Hl]. by destruct l.
    + apply lookup_ge_None in Hlk. rewrite drop_ge by done.
      split; [done|]. intros [Ht Hl]. by destruct l.
Qed.

Lemma foreach_Some a l :
  sc_array_foreach a = Some l <->
  take (Z.to_nat (size a)) (slots_of a) = Some <$> l /\
  length l = Z.to_nat (size a).
Proof.
  unfold sc_array_foreach.
  rewrite foreach_from_Some by done. by rewrite drop_0.
Qed.

(** Two arrays with the same size and the same first [size] slots are
    traversed alike. *)
Lemma foreach_take_ext a b :
  size a = size b ->
  take (Z.to_nat (size a)) (slots_of a)
    = take (Z.to_nat (size a)) (slots_of b) ->
  sc_array_foreach a = sc_array_foreach b.
Proof.
  intros Hs Ht.
  assert (forall l, sc_array_foreach a = Some l <->
                    sc_array_foreach b = Some l) as Hiff.
  { intros l. rewrite !foreach_Some, <-Hs, Ht. done. }
  destruct (sc_array_foreach a) as [l|].
  - symmetry. by apply Hiff.
  - destruct (sc_array_foreach b) as [l|]; [|done].
    by apply (Hiff l).
Qed.

Lemma Forall_is_Some_fmap (xs : list (option T)) :
  Forall is_Some xs -> exists l, xs = Some <$> l.
Proof.
  induction 1 as [|x xs [v ->] _ [l ->]].
  - by exists [].
  - by exists (v :: l).
Qed.

(** A well-formed array can be traversed. *)
Lemma wf_foreach a : wf sizeof_T a -> is_Some (sc_array_foreach a).
Proof.
  intros [Hs Hblk]. unfold slots_of.
  destruct (elems a) as [blk|] eqn:He.
  - destruct Hblk as (Hc & _ & Hall).
    destruct (Forall_is_Some_fmap _ Hall) as [l Hl].
    exists l. apply foreach_Some. unfold slots_of. rewrite He. simpl.
    split; [done|].
    apply (f_equal length) in Hl.
    rewrite length_take, length_fmap in Hl. lia.
  - exists []. apply foreach_Some. unfold slots_of. rewrite He. simpl.
    replace (size a) with 0 by lia. done.
Qed.


(** *** The growth policy *)

(** An element has at least one byte and [SC_ARRAY_MAX] is a [size_t]. *)
Hypothesis sizeof_pos : 1 <= sizeof_T.
Hypothesis max_range : 0 <= SC_ARRAY_MAX <= SIZE_MAX.

Lemma array_max_range : 0 <= MAX <= SIZE_MAX.
Proof.
  unfold array_max. split.
  - apply Z.div_pos; lia.
  - transitivity SC_ARRAY_MAX; [|lia].
    apply Z.div_le_upper_bound; nia.
Qed.

Lemma array_max_bytes c : 0 <= c <= MAX -> 0 <= c * sizeof_T <= SIZE_MAX.
Proof.
  intros Hc. unfold array_max in Hc.
  pose proof (Z.mul_div_le SC_ARRAY_MAX sizeof_T ltac:(lia)). nia.
Qed.

(** Below the refusal threshold doubling stays within [MAX]. *)
Lemma grow_cap_double c :
  0 < c -> grow_refused sizeof_T SC_ARRAY_MAX c = false ->
  grow_cap c = 2 * c /\ 2 * c <= MAX.
Proof.
  unfold grow_refused, grow_cap. intros Hc Hr.
  pose proof array_max_range as HM.
  assert (c <= MAX / 2) as Hle by lia.
  assert (2 * c <= MAX).
  { pose proof (Z.mul_div_le MAX 2 ltac:(lia)). lia. }
  destruct (Z.eqb_spec c 0); [lia|].
  split; [|done]. rewrite wrap_small; lia.
Qed.


(** *** Capacity zero and the block *)

(** Where the doubling is not refused the new capacity is not zero. *)
Lemma grow_cap_nonzero c :
  0 <= c -> grow_refused sizeof_T SC_ARRAY_MAX c = false -> 0 < grow_cap c.
Proof.
  intros Hc Hr. destruct (Z.eqb_spec c 0) as [->|Hne]; [done|].
  destruct (grow_cap_double c) as [-> _]; [lia|done|lia].
Qed.

Lemma step_no_block_at_zero o a a' :
  is_clear o = false ->
  step sizeof_T SC_ARRAY_MAX o a = Some a' ->
  no_block_at_zero a -> no_block_at_zero a'.
Proof.
  intros Hclr Hstep [Hcap Hz]. destruct o; simpl in *; simplify_eq; try done.
  - (* append *)
    unfold sc_array_add, sc_array_grow, sc_array_realloc in Hstep.
    assert (forall b, sc_array_store b k = Some a' ->
              0 <= cap b -> (cap b = 0 -> elems b = None) ->
              no_block_at_zero a') as Hstore.
    { intros b Hb Hcb Hzb. unfold sc_array_store in Hb.
      destruct (elems b) eqn:He; [|done].
      destruct (_ && _); simplify_eq. split; simpl; [done|].
      intros Hc. by specialize (Hzb Hc). }
    destruct (cap a =? size a).
    + destruct (grow_refused _ _ _) eqn:Hr; [by simplify_eq|].
      destruct ok; [|by simplify_eq].
      pose proof (grow_cap_nonzero _ Hcap Hr).
      eapply Hstore; [done|simpl; lia..].
    + by eapply Hstore.
  - (* ordered delete *)
    unfold sc_array_del in Hstep.
    destruct (wrap i <? size a); [|done].
    destruct (del_cnt a i >? 0).
    + destruct (elems a) eqn:He; [|done].
      destruct (memmove _ _ _ _); simplify_eq/=.
      split; [done|]. intros Hc. by specialize (Hz Hc).
    + by simplify_eq.
  - (* unordered delete *)
    rewrite del_unordered_Val in Hstep. unfold swap_last in Hstep.
    destruct (wrap i <? size a); [|done].
    destruct (elems a) eqn:He; [|done].
    destruct (_ !! _); [|done].
    destruct (_ && _); simplify_eq.
    split; simpl; [done|]. intros Hc. by specialize (Hz Hc).
  - (* pop *)
    unfold sc_array_del_last in Hstep.
    destruct (size a =? 0); by simplify_eq.
Qed.

Lemma run_no_block_at_zero os a a' :
  forallb (fun o => negb (is_clear o)) os = true ->
  run sizeof_T SC_ARRAY_MAX os a = Some a' ->
  no_block_at_zero a -> no_block_at_zero a'.
Proof.
  revert a. induction os as [|o os IH]; intros a Hnc Hrun Ha; simpl in *.
  - by simplify_eq.
  - apply andb_prop in Hnc as [Ho Hos].
    destruct (step _ _ o a) as [a1|] eqn:Hstep; [|done].
    apply (IH a1); [done..|].
    eapply step_no_block_at_zero; [|done..].
    by destruct (is_clear o).
Qed.

(** C4, amended: in every state reached from the initial state by init,
    append, ordered delete, unordered delete, pop and term, without
    clear, capacity 0 means that the array has no block ([elems] is
    NULL).  Clear itself sets the capacity to 0 and keeps the block. *)
Theorem cap_zero_no_block_without_clear os a0 a :
  forallb (fun o => negb (is_clear o)) os = true ->
  run sizeof_T SC_ARRAY_MAX os (sc_array_init a0) = Some a ->
  (cap a = 0 -> elems a = None) /\
  cap (sc_array_clear a) = 0 /\
  elems (sc_array_clear a) = elems a.
Proof.
  intros Hnc Hrun. split; [|done].
  eapply run_no_block_at_zero; [done..|]. by split.
Qed.

(** *** Appending, then traversing *)

Lemma store_Some a k a' :
  sc_array_store a k = Some a' <->
  0 <= size a < Z.of_nat (length (slots_of a)) /\
  a' = {| oom := false; cap := cap a; size := wrap (size a + 1);
          elems := Some (<[Z.to_nat (size a) := Some k]> (slots_of a)) |}.
Proof.
  clear sizeof_pos max_range.
  unfold sc_array_store, slots_of.
  destruct (elems a) as [blk|]; simpl.
  - destruct (Z.leb_spec 0 (size a));
      destruct (Z.ltb_spec (size a) (Z.of_nat (length blk))); simpl;
      split; try done; try (intros [? _]; lia).
    + intros [= <-]. split; [lia|done].
    + by intros [_ ->].
  - split; [done|]. intros [? _]. lia.
Qed.

(** What the growth step leaves behind when control goes on to the
    store: the array itself, or the array with the new capacity and
    the reallocated block. *)
Lemma grow_Continue ok a b :
  grow ok a = Continue b ->
  size b = size a /\ oom b = oom a /\
  (b = a \/
   (cap a = size a /\ grow_refused sizeof_T SC_ARRAY_MAX (cap a) = false /\
    cap b = grow_cap (cap a) /\
    slots_of b =
      resize (Z.to_nat (grow_bytes sizeof_T (cap a) / sizeof_T)) None
        (slots_of a))).
Proof.
  clear sizeof_pos max_range.
  unfold sc_array_grow, sc_array_realloc.
  destruct (Z.eqb_spec (cap a) (size a)); [|naive_solver].
  destruct (grow_refused _ _ _); [done|].
  destruct ok; [|done]. intros [= <-]. simpl. naive_solver.
Qed.

Lemma realloc_slots_bound c :
  Z.of_nat (Z.to_nat (grow_bytes sizeof_T c / sizeof_T)) <= SIZE_MAX.
Proof.
  clear max_range.
  unfold grow_bytes. pose proof (wrap_range (grow_cap c * sizeof_T)) as Hw.
  assert (wrap (grow_cap c * sizeof_T) / sizeof_T <= SIZE_MAX).
  { apply Z.div_le_upper_bound; nia. }
  lia.
Qed.

Lemma take_S_insert {A} (l : list A) (n : nat) (x : A) :
  (n < length l)%nat -> take (S n) (<[n := x]> l) = take n l ++ [x].
Proof.
  clear sizeof_pos max_range.
  intros Hn. rewrite insert_take_drop by done.
  rewrite take_app_ge by (rewrite length_take; lia).
  rewrite length_take. replace (S n - n `min` length l)%nat with 1%nat by lia.
  done.
Qed.

(** One successful append adds its element at the end of what a
    traversal yields. *)
Lemma add_foreach ok a k a1 l0 :
  add ok a k = Some a1 -> oom a1 = false ->
  Z.of_nat (length (slots_of a)) <= SIZE_MAX ->
  sc_array_foreach a = Some l0 ->
  sc_array_foreach a1 = Some (l0 ++ [k]) /\
  size a1 = size a + 1 /\
  Z.of_nat (length (slots_of a1)) <= SIZE_MAX.
Proof.
  clear max_range.
  intros Hadd Hoom Hlen Hl0. unfold sc_array_add in Hadd.
  destruct (grow ok a) as [b|b] eqn:Hg.
  { simplify_eq. apply grow_break in Hg as [-> _]. done. }
  apply grow_Continue in Hg as (Hsz & _ & Hb).
  apply store_Some in Hadd as [Hin ->].
  apply foreach_Some in Hl0 as [Ht Hn].
  assert (Z.of_nat (length (slots_of b)) <= SIZE_MAX /\
          take (Z.to_nat (size a)) (slots_of b) = Some <$> l0)
    as [Hlenb Htb].
  { destruct Hb as [->|(_ & _ & _ & Hres)]; [done|].
    rewrite Hres, length_resize in *. split.
    - apply realloc_slots_bound.
    - rewrite take_resize_le by lia.
      apply (f_equal length) in Ht as Hlt.
      rewrite length_take, length_fmap in Hlt.
      rewrite resize_le by lia. done. }
  rewrite Hsz in *. rewrite wrap_small by lia.
  split; [|split; [done|]].
  - apply foreach_Some. simpl.
    replace (Z.to_nat (size a + 1)) with (S (Z.to_nat (size a))) by lia.
    rewrite slots_of_Some, take_S_insert by lia.
    rewrite Htb, fmap_app, length_app. simpl.
    split; [done|lia].
  - by rewrite slots_of_Some, length_insert.
Qed.

Lemma appended_foreach a es a' l0 :
  appended sizeof_T SC_ARRAY_MAX a es a' ->
  Z.of_nat (length (slots_of a)) <= SIZE_MAX ->
  sc_array_foreach a = Some l0 ->
  sc_array_foreach a' = Some (l0 ++ es) /\
  size a' = size a + Z.of_nat (length es).
Proof.
  clear max_range.
  intros Happ. revert l0.
  induction Happ as [a|a ok k a1 es a' Hadd Hoom _ IH]; intros l0 Hlen Hl0.
  - rewrite app_nil_r. simpl. split; [done|lia].
  - destruct (add_foreach _ _ _ _ _ Hadd Hoom Hlen Hl0) as (Hf & Hs & Hl).
    destruct (IH _ Hl Hf) as [IHf IHs].
    rewrite <-app_assoc in IHf. simpl in *. split; [done|lia].
Qed.

(** C9: round trip.  When the elements [es] are appended in order to a
    freshly initialised array and every append succeeds, a traversal
    yields exactly [es], and the size is their number. *)
Theorem sc_array_add_foreach_round_trip a0 es a :
  appended sizeof_T SC_ARRAY_MAX (sc_array_init a0) es a ->
  sc_array_foreach a = Some es /\ size a = Z.of_nat (length es).
Proof.
  clear max_range.
  intros Happ.
  destruct (appended_foreach _ _ _ [] Happ) as [Hf Hs]; [done..|].
  split; [done|]. simpl in Hs. lia.
Qed.


(** *** Well-formed arrays and append *)

Lemma wf_slots a :
  wf sizeof_T a ->
  0 <= size a <= cap a /\
  cap a <= Z.of_nat (length (slots_of a)) /\
  Z.of_nat (length (slots_of a)) * sizeof_T <= SIZE_MAX /\
  Forall is_Some (take (Z.to_nat (size a)) (slots_of a)).
Proof. clear max_range.
  intros [Hs Hblk]. unfold slots_of. split; [done|].
  destruct (elems a) as [blk|]; simpl; [done|].
  rewrite take_nil. unfold SIZE_MAX. repeat split; [lia..|done].
Qed.

Lemma wf_intro o c s blk :
  0 <= s <= c -> c <= Z.of_nat (length blk) ->
  Z.of_nat (length blk) * sizeof_T <= SIZE_MAX ->
  Forall is_Some (take (Z.to_nat s) blk) ->
  wf sizeof_T (mk_array o c s (Some blk)).
Proof. by intros; split. Qed.

Lemma wf_set_oom o a : wf sizeof_T a -> wf sizeof_T (set_oom o a).
Proof. done. Qed.

(** Where the check of line 88 passes and [MAX] is at least 8, the new
    capacity is above the old one and within [MAX], and the byte count
    of the allocation is exact. *)
Lemma grow_no_overflow c :
  8 <= MAX -> 0 <= c ->
  grow_refused sizeof_T SC_ARRAY_MAX c = false ->
  c < grow_cap c <= MAX /\
  grow_cap c * sizeof_T <= SIZE_MAX /\
  grow_bytes sizeof_T c = grow_cap c * sizeof_T /\
  grow_bytes sizeof_T c / sizeof_T = grow_cap c.
Proof.
  intros H8 Hc Hr.
  assert (c < grow_cap c <= MAX) as Hg.
  { destruct (Z.eqb_spec c 0) as [->|Hne]; [done|].
    destruct (grow_cap_double c) as [-> ?]; [lia|done|lia]. }
  pose proof (array_max_bytes (grow_cap c) ltac:(lia)) as Hb.
  unfold grow_bytes. rewrite wrap_small by done.
  rewrite Z.div_mul by lia. repeat split; lia.
Qed.

Lemma store_wf b k :
  0 <= size b < cap b ->
  cap b <= Z.of_nat (length (slots_of b)) ->
  Z.of_nat (length (slots_of b)) * sizeof_T <= SIZE_MAX ->
  Forall is_Some (take (Z.to_nat (size b)) (slots_of b)) ->
  exists a', sc_array_store b k = Some a' /\ wf sizeof_T a' /\
    oom a' = false /\ size a' = size b + 1 /\ cap a' = cap b.
Proof.
  intros Hs Hc Hbytes Hall. eexists. split.
  { apply store_Some. split; [lia|done]. }
  assert (size b + 1 <= SIZE_MAX) by nia.
  rewrite wrap_small by lia. split; [|done].
  apply wf_intro; rewrite ?length_insert; [lia..|].
  replace (Z.to_nat (size b + 1)) with (S (Z.to_nat (size b))) by lia.
  rewrite take_S_insert by lia.
  apply Forall_app_2; [done|]. by repeat constructor.
Qed.

(** Append on a well-formed array is defined and gives a well-formed
    array (I1 is kept); with an allocation that succeeds it fails only
    by the check of line 88. *)
Lemma add_wf ok a k :
  8 <= MAX -> wf sizeof_T a ->
  exists a', add ok a k = Some a' /\ wf sizeof_T a' /\
    (ok = true -> size a <= MAX / 2 ->
       oom a' = false /\ size a' = size a + 1).
Proof.
  intros H8 Hwf. pose proof Hwf as Hwf'.
  apply wf_slots in Hwf' as (Hs & Hc & Hbytes & Hall).
  unfold sc_array_add, sc_array_grow, sc_array_realloc.
  change (default [] (elems a)) with (slots_of a).
  destruct (Z.eqb_spec (cap a) (size a)) as [Heq|Hne].
  - destruct (grow_refused _ _ _) eqn:Hr.
    { exists (set_oom true a). repeat split; try apply Hwf;
        unfold grow_refused in Hr; lia. }
    destruct ok; [|exists (set_oom true a); by repeat split; try apply Hwf].
    destruct (grow_no_overflow (cap a)) as (Hg & Hgb & _ & Hdiv);
      [done|lia|done|].
    rewrite Hdiv.
    edestruct (store_wf
                 {| oom := oom a; cap := grow_cap (cap a); size := size a;
                    elems := Some (resize (Z.to_nat (grow_cap (cap a))) None
                                     (slots_of a)) |} k)
      as (a' & Hst & Hwf' & Ho & Hsz & _); simpl;
      rewrite ?slots_of_Some, ?length_resize; try lia.
    { rewrite take_resize_le by lia. rewrite resize_le by lia. done. }
    exists a'. done.
  - destruct (store_wf a k) as (a' & Hst & Hwf' & Ho & Hsz & _);
      [lia|done..|].
    exists a'. done.
Qed.

Lemma add_all_appended es a a' :
  add_all sizeof_T SC_ARRAY_MAX es a = Some a' ->
  appended sizeof_T SC_ARRAY_MAX a es a'.
Proof.
  revert a. induction es as [|k es IH]; intros a Hall; simpl in Hall.
  - simplify_eq. constructor.
  - destruct (add true a k) as [a1|] eqn:Hadd; [|done].
    destruct (oom a1) eqn:Hoom; [done|].
    econstructor; eauto.
Qed.

(** With an allocator that never fails, a row of appends that keeps the
    size within [MAX / 2 + 1] succeeds throughout. *)
Lemma add_all_total es a :
  8 <= MAX -> wf sizeof_T a ->
  size a + Z.of_nat (length es) <= MAX / 2 + 1 ->
  exists a', add_all sizeof_T SC_ARRAY_MAX es a = Some a' /\ wf sizeof_T a'.
Proof.
  intros H8. revert a.
  induction es as [|k es IH]; intros a Hwf Hlen; simpl in *.
  - by exists a.
  - destruct (add_wf true a k H8 Hwf) as (a1 & -> & Hwf1 & Hok).
    destruct Hok as [-> Hsz]; [done|lia|].
    apply IH; [done|lia].
Qed.


(** *** Ordered delete *)

Lemma Forall_is_Some_Some (l : list T) : Forall is_Some (Some <$> l).
Proof. apply Forall_fmap, Forall_true. by eexists. Qed.

(** Moving the [s - i - 1] slots after index [i] one slot down removes
    slot [i] from the first [s] slots. *)
Lemma memmove_delete blk i s :
  0 <= i < s -> s <= Z.of_nat (length blk) ->
  exists blk', memmove blk i (i + 1) (s - i - 1) = Some blk' /\
    length blk' = length blk /\
    take (Z.to_nat (s - 1)) blk'
      = delete (Z.to_nat i) (take (Z.to_nat s) blk).
Proof.
  intros Hi Hs. unfold memmove.
  destruct (Z.leb_spec 0 i); [|lia].
  destruct (Z.leb_spec 0 (i + 1)); [|lia].
  destruct (Z.leb_spec 0 (s - i - 1)); [|lia].
  destruct (Z.leb_spec (i + (s - i - 1)) (Z.of_nat (length blk))); [|lia].
  destruct (Z.leb_spec (i + 1 + (s - i - 1)) (Z.of_nat (length blk))); [|lia].
  simpl. eexists. split; [done|].
  replace (Z.to_nat (i + 1)) with (S (Z.to_nat i)) by lia.
  replace (Z.to_nat (i + (s - i - 1))) with (Z.to_nat s - 1)%nat by lia.
  replace (Z.to_nat (s - i - 1)) with (Z.to_nat s - S (Z.to_nat i))%nat
    by lia.
  replace (Z.to_nat (s - 1)) with (Z.to_nat s - 1)%nat by lia.
  set (n := Z.to_nat s). set (j := Z.to_nat i).
  assert (j < n)%nat by lia. assert (n <= length blk)%nat by lia.
  split.
  - rewrite !length_app, !length_take, !length_drop. lia.
  - rewrite app_assoc, take_app_length'
      by (rewrite length_app, !length_take, length_drop; lia).
    rewrite delete_take_drop, take_take, skipn_firstn_comm.
    by replace (j `min` n)%nat with j by lia.
Qed.

Lemma del_defined a i l :
  wf sizeof_T a -> sc_array_foreach a = Some l -> 0 <= i < size a ->
  exists a', del a i = Some a' /\
    sc_array_foreach a' = Some (delete (Z.to_nat i) l) /\
    size a' = size a - 1 /\ cap a' = cap a /\ oom a' = oom a /\
    wf sizeof_T a'.
Proof.
  intros Hwf Hl Hi. pose proof Hwf as [Hs Hblk].
  apply foreach_Some in Hl as [Ht Hlen]. unfold slots_of in Ht.
  destruct (elems a) as [blk|] eqn:He; [|lia]. simpl in Ht.
  destruct Hblk as (Hc & Hbytes & Hall).
  assert (size a <= SIZE_MAX) by nia.
  assert (exists blk',
    (if del_cnt a i >? 0
     then Some <$> memmove blk i (i + 1)
                     (wrap (del_cnt a i * sizeof_T) / sizeof_T)
     else Some (Some blk)) = Some (Some blk') /\
    length blk' = length blk /\
    take (Z.to_nat (size a - 1)) blk'
      = delete (Z.to_nat i) (take (Z.to_nat (size a)) blk))
    as (blk' & Hmv & Hlen' & Ht').
  { unfold del_cnt. rewrite wrap_small by lia.
    destruct (Z.gtb_spec (size a - i - 1) 0).
    - rewrite wrap_small by nia. rewrite Z.div_mul by lia.
      destruct (memmove_delete blk i (size a)) as (blk' & -> & ? & ?);
        [lia..|].
      by exists blk'.
    - exists blk. repeat split.
      replace i with (size a - 1) by lia.
      rewrite delete_take_drop, take_take, drop_ge
        by (rewrite length_take; lia).
      rewrite app_nil_r. f_equal. lia. }
  unfold sc_array_del. rewrite He, (wrap_small i) by lia.
  destruct (Z.ltb_spec i (size a)); [|lia].
  simpl. rewrite Hmv, wrap_small by lia.
  assert (is_Some (l !! Z.to_nat i)) as Hlk.
  { apply lookup_lt_is_Some. lia. }
  eexists. split; [done|]. simpl.
  assert (take (Z.to_nat (size a - 1)) blk'
            = Some <$> delete (Z.to_nat i) l) as Htl.
  { by rewrite Ht', Ht, list_fmap_delete. }
  repeat split; try done.
  - apply foreach_Some. rewrite slots_of_Some. simpl. split; [done|].
    rewrite length_delete by done. lia.
  - simpl. lia.
  - simpl. lia.
  - simpl. rewrite Hlen'. lia.
  - simpl. by rewrite Hlen'.
  - simpl. rewrite Htl. apply Forall_is_Some_Some.
Qed.

(** C7: ordered delete preserves order.  On an array that holds
    [a0, ..., a(n-1)], with [i < size], ordered delete at [i] is defined
    and the array then holds [a0, ..., a(i-1), a(i+1), ..., a(n-1)]: the
    elements before [i] followed by the elements after [i], in their
    order; the size is one less and the capacity is unchanged. *)
Theorem sc_array_del_preserves_order a i l :
  wf sizeof_T a -> sc_array_foreach a = Some l -> 0 <= i < size a ->
  exists a', del a i = Some a' /\
    sc_array_foreach a'
      = Some (take (Z.to_nat i) l ++ drop (S (Z.to_nat i)) l) /\
    size a' = size a - 1 /\ cap a' = cap a /\ oom a' = oom a.
Proof.
  intros Hwf Hl Hi.
  destruct (del_defined a i l Hwf Hl Hi) as (a' & Hd & Hf & Hs & Hc & Ho & _).
  exists a'. by rewrite <-delete_take_drop.
Qed.


(** *** Unordered delete *)

(** Putting the last element of [l] in place of the element at [i] and
    dropping the last position removes one occurrence of the element at
    [i]. *)
Lemma swap_remove_Permutation (l : list T) (i : nat) (x y : T) :
  l !! i = Some x -> l !! (length l - 1)%nat = Some y ->
  x :: take (length l - 1) (<[i := y]> l) ≡ₚ l.
Proof.
  intros Hx Hy.
  pose proof (lookup_lt_Some _ _ _ Hx) as Hi.
  destruct (decide (i = length l - 1)%nat) as [->|Hne].
  - simplify_eq. rewrite list_insert_id by done.
    rewrite <-(take_drop_middle l (length l - 1) x) at 3 by done.
    rewrite drop_ge by lia. by rewrite Permutation_cons_append.
  - rewrite take_insert_lt by lia.
    set (l0 := take (length l - 1) l).
    assert (l = l0 ++ [y]) as Hl.
    { rewrite <-(take_drop_middle l (length l - 1) y) at 1 by done.
      by rewrite drop_ge by lia. }
    assert (l0 !! i = Some x) as Hx0.
    { unfold l0. rewrite lookup_take_lt by lia. done. }
    clearbody l0. rewrite Hl.
    rewrite (insert_take_drop l0) by (by eapply lookup_lt_Some).
    rewrite <-Permutation_middle, <-Permutation_cons_append.
    rewrite <-delete_take_drop, perm_swap. f_equiv.
    symmetry. by apply delete_Permutation.
Qed.

Lemma del_unordered_defined a i l :
  wf sizeof_T a -> sc_array_foreach a = Some l -> 0 <= i < size a ->
  exists a' y,
    l !! Z.to_nat (size a - 1) = Some y /\
    sc_array_del_unordered a (Val i) = Some a' /\
    elems a' = Some (<[Z.to_nat i := Some y]> (slots_of a)) /\
    sc_array_foreach a'
      = Some (take (Z.to_nat (size a - 1)) (<[Z.to_nat i := y]> l)) /\
    size a' = size a - 1 /\ cap a' = cap a /\ oom a' = oom a /\
    wf sizeof_T a'.
Proof.
  intros Hwf Hl Hi. pose proof Hwf as [Hs Hblk].
  apply foreach_Some in Hl as [Ht Hlen]. unfold slots_of in *.
  destruct (elems a) as [blk|] eqn:He; [|lia]. simpl in Ht.
  destruct Hblk as (Hc & Hbytes & Hall).
  assert (size a <= SIZE_MAX) by nia.
  destruct (lookup_lt_is_Some_2 l (Z.to_nat (size a - 1))) as [y Hy];
    [lia|].
  assert (blk !! Z.to_nat (size a - 1) = Some (Some y)) as Hlast.
  { rewrite <-(lookup_take_lt _ (Z.to_nat (size a))) by lia.
    by rewrite Ht, list_lookup_fmap, Hy. }
  rewrite del_unordered_Val. unfold swap_last.
  rewrite He, (wrap_small i) by lia.
  destruct (Z.ltb_spec i (size a)); [|lia].
  rewrite wrap_small by lia. rewrite Hlast.
  destruct (Z.leb_spec 0 i); [|lia].
  destruct (Z.ltb_spec i (Z.of_nat (length blk))); [|lia].
  simpl. eexists. exists y.
  assert (take (Z.to_nat (size a - 1)) (<[Z.to_nat i := Some y]> blk)
          = Some <$> take (Z.to_nat (size a - 1)) (<[Z.to_nat i := y]> l))
    as Htl.
  { rewrite fmap_take, list_fmap_insert, <-Ht, <-take_insert_lt by lia.
    rewrite take_take. f_equal. lia. }
  repeat split; try done; simpl.
  - apply foreach_Some. rewrite slots_of_Some. simpl. split; [done|].
    rewrite length_take, length_insert. lia.
  - lia.
  - lia.
  - rewrite length_insert. lia.
  - by rewrite length_insert.
  - rewrite Htl. apply Forall_is_Some_Some.
Qed.

(** X17: unordered delete at an index that is a value.  On a
    well-formed array that holds [l], with [i < size] and an index
    expression that does not read the size, unordered delete at [i] is
    defined: it writes the last element into slot [i] and makes the size
    one less, capacity and flag as before.  The array then holds a
    sequence that, with the deleted element back, is a permutation of
    [l]; from [a,b,c,d,e] and [i = 1] it holds [a,e,c,d]; at the last
    index, given as a value, the result is the result of pop. *)
Theorem sc_array_del_unordered_swap_remove a i l :
  wf sizeof_T a -> sc_array_foreach a = Some l -> 0 <= i < size a ->
  exists a' y l',
    sc_array_last a = Some y /\
    sc_array_del_unordered a (Val i) = Some a' /\
    elems a' = Some (<[Z.to_nat i := Some y]> (slots_of a)) /\
    size a' = size a - 1 /\ cap a' = cap a /\ oom a' = oom a /\
    sc_array_foreach a' = Some l' /\
    l' = take (Z.to_nat (size a - 1)) (<[Z.to_nat i := y]> l) /\
    (forall x, l !! Z.to_nat i = Some x -> x :: l' ≡ₚ l) /\
    (forall x0 x1 x2 x3 x4,
       l = [x0; x1; x2; x3; x4] -> i = 1 -> l' = [x0; x4; x2; x3]) /\
    (i = size a - 1 ->
       sc_array_del_unordered a (Val i) = sc_array_del_last a).
Proof.
  intros Hwf Hl Hi.
  destruct (del_unordered_defined a i l Hwf Hl Hi)
    as (a' & y & Hy & Hd & Hsl & Hf & Hs & Hc & Ho & _).
  pose proof (wf_slots a Hwf) as (Hsz & Hcl & Hbytes & _).
  assert (size a <= SIZE_MAX) by nia.
  pose proof Hl as Hl'. apply foreach_Some in Hl' as [Ht Hlen].
  assert (slots_of a !! Z.to_nat (size a - 1) = Some (Some y)) as Hlast.
  { rewrite <-(lookup_take_lt _ (Z.to_nat (size a))) by lia.
    by rewrite Ht, list_lookup_fmap, Hy. }
  exists a', y, (take (Z.to_nat (size a - 1)) (<[Z.to_nat i := y]> l)).
  repeat split; try done.
  - unfold sc_array_last. rewrite wrap_small by lia.
    rewrite at_slots by lia. by rewrite Hlast.
  - intros x Hx.
    replace (Z.to_nat (size a - 1)) with (length l - 1)%nat in * by lia.
    by apply swap_remove_Permutation.
  - intros x0 x1 x2 x3 x4 -> ->. simpl in Hlen.
    replace (size a) with 5 in * by lia. by simplify_eq/=.
  - intros ->. rewrite Hd. unfold sc_array_del_last.
    destruct (Z.eqb_spec (size a) 0); [lia|].
    rewrite wrap_small by lia. f_equal.
    destruct a' as [o' c' s' e']. simpl in *. subst.
    rewrite list_insert_id by done. unfold slots_of in *.
    destruct (elems a); [done|]. done.
Qed.


(** *** [qsort] with the width of an element *)












(** *** I1 along every run *)

Lemma memmove_Some blk dst src n blk' :
  memmove blk dst src n = Some blk' ->
  0 <= dst /\ 0 <= n /\ dst + n <= Z.of_nat (length blk).
Proof.
  unfold memmove.
  destruct (Z.leb_spec 0 dst); [|done].
  destruct (Z.leb_spec 0 src); [|done].
  destruct (Z.leb_spec 0 n); [|done].
  destruct (Z.leb_spec (dst + n) (Z.of_nat (length blk))); [|done].
  intros _. lia.
Qed.

Lemma wf_size_max a : wf sizeof_T a -> size a <= SIZE_MAX.
Proof. clear max_range. intros Hwf. apply wf_slots in Hwf as (? & ? & ? & _). nia. Qed.

Lemma wf_set_size a n :
  wf sizeof_T a -> 0 <= n <= size a -> wf sizeof_T (set_size n a).
Proof. clear max_range.
  intros [Hs Hblk] Hn. split; simpl; [lia|].
  destruct (elems a) as [blk|]; [|done].
  destruct Hblk as (? & ? & Hall). repeat split; [done..|].
  replace (Z.to_nat n) with (Z.to_nat n `min` Z.to_nat (size a))%nat by lia.
  rewrite <-take_take. by apply Forall_take.
Qed.

Lemma add_wf_Some ok a k a' :
  8 <= MAX -> wf sizeof_T a -> add ok a k = Some a' -> wf sizeof_T a'.
Proof.
  intros H8 Hwf Hadd.
  destruct (add_wf ok a k H8 Hwf) as (a1 & Ha1 & Hwf1 & _). congruence.
Qed.

Lemma del_wf a i a' :
  wf sizeof_T a -> del a i = Some a' -> wf sizeof_T a'.
Proof.
  intros Hwf Hdel. pose proof (wf_size_max a Hwf) as Hmax.
  pose proof (wf_slots a Hwf) as (Hs & Hc & _).
  pose proof (wrap_range i) as Hwi.
  destruct (decide (0 <= i <= SIZE_MAX)) as [Hi|Hi].
  - destruct (wf_foreach a Hwf) as [l Hl].
    assert (0 <= i < size a) as Hlt.
    { unfold sc_array_del in Hdel. rewrite wrap_small in Hdel by done.
      destruct (Z.ltb_spec i (size a)); [lia|done]. }
    destruct (del_defined a i l Hwf Hl Hlt) as (a1 & Ha1 & _ & _ & _ & _ & ?).
    congruence.
  - unfold sc_array_del in Hdel.
    destruct (Z.ltb_spec (wrap i) (size a)); [|done].
    destruct (del_cnt a i >? 0).
    + destruct (elems a) as [blk|] eqn:He; [|done].
      destruct (memmove _ _ _ _) as [blk'|] eqn:Hmv; [|done].
      apply memmove_Some in Hmv. unfold slots_of in Hc. rewrite He in Hc.
      apply wf_slots in Hwf as (_ & _ & Hb & _).
      unfold slots_of in Hb. rewrite He in Hb. simpl in *. nia.
    + simplify_eq. rewrite wrap_small by lia.
      apply (wf_set_size a (size a - 1)); [done|lia].
Qed.

Lemma del_unordered_wf a i a' :
  wf sizeof_T a -> sc_array_del_unordered a (Val i) = Some a' ->
  wf sizeof_T a'.
Proof.
  intros Hwf Hdel. pose proof (wf_size_max a Hwf) as Hmax.
  pose proof (wf_slots a Hwf) as (Hs & Hc & Hb & _).
  assert (0 <= i < size a) as Hlt.
  { rewrite del_unordered_Val in Hdel. unfold swap_last, slots_of in *.
    destruct (Z.ltb_spec (wrap i) (size a)); [|done].
    destruct (elems a) as [blk|]; [|done].
    destruct (_ !! _); [|done].
    destruct (Z.leb_spec 0 i); [|done].
    destruct (Z.ltb_spec i (Z.of_nat (length blk))); [|done].
    simpl in *. rewrite wrap_small in * by nia. lia. }
  destruct (wf_foreach a Hwf) as [l Hl].
  destruct (del_unordered_defined a i l Hwf Hl Hlt)
    as (a1 & y & _ & Ha1 & _ & _ & _ & _ & _ & ?).
  congruence.
Qed.

Lemma del_last_wf a a' :
  wf sizeof_T a -> sc_array_del_last a = Some a' -> wf sizeof_T a'.
Proof.
  intros Hwf Hdel. pose proof (wf_size_max a Hwf) as Hmax.
  pose proof (wf_slots a Hwf) as (Hs & _).
  unfold sc_array_del_last in Hdel.
  destruct (Z.eqb_spec (size a) 0); simplify_eq.
  rewrite wrap_small by lia.
  apply (wf_set_size a (size a - 1)); [done|lia].
Qed.

Lemma clear_wf a : wf sizeof_T a -> wf sizeof_T (sc_array_clear a).
Proof.
  intros [Hs Hblk]. split; simpl; [done|].
  destruct (elems a) as [blk|]; [|done].
  destruct Hblk as (? & ? & _). repeat split; [lia|done|done].
Qed.

Lemma init_wf a : wf sizeof_T (sc_array_init a).
Proof. by split. Qed.

Lemma step_wf o a a' :
  8 <= MAX -> wf sizeof_T a ->
  step sizeof_T SC_ARRAY_MAX o a = Some a' -> wf sizeof_T a'.
Proof.
  intros H8 Hwf Hstep. destruct o; simpl in Hstep.
  - simplify_eq. apply init_wf.
  - by eapply add_wf_Some.
  - by eapply del_wf.
  - by eapply del_unordered_wf.
  - by eapply del_last_wf.
  - simplify_eq. by apply clear_wf.
  - simplify_eq. apply init_wf.
Qed.

(** Every array reached from the initial state is well-formed, where
    [MAX] is at least 8. *)
Lemma run_wf os a a' :
  8 <= MAX -> wf sizeof_T a ->
  run sizeof_T SC_ARRAY_MAX os a = Some a' -> wf sizeof_T a'.
Proof.
  intros H8. revert a. induction os as [|o os IH]; intros a Hwf Hrun.
  - by simplify_eq/=.
  - simpl in Hrun.
    destruct (step _ _ o a) as [a1|] eqn:Hstep; [|done].
    eapply IH; [|done]. by eapply step_wf.
Qed.


(** *** Clear, then append *)

Lemma resize_take_ext {A} (l1 l2 : list A) (s m : nat) (x : A) :
  (m <= s)%nat -> length l1 = length l2 -> take s l1 = take s l2 ->
  resize m x l1 = resize m x l2.
Proof.
  intros Hm Hlen Ht. rewrite !resize_spec, Hlen. f_equal.
  replace m with (m `min` s)%nat by lia.
  by rewrite <-!take_take, Ht.
Qed.

Lemma same_growth_foreach a b :
  same_growth a b -> sc_array_foreach a = sc_array_foreach b.
Proof.
  intros [Hobs Halt]. unfold observe in Hobs. simplify_eq.
  apply foreach_take_ext; [done|].
  destruct Halt as [[_ ->]|[_ Ht]]; done.
Qed.

Lemma same_growth_store a b k :
  cap a = cap b -> size a = size b ->
  length (slots_of a) = length (slots_of b) ->
  take (Z.to_nat (size a)) (slots_of a)
    = take (Z.to_nat (size a)) (slots_of b) ->
  match sc_array_store a k, sc_array_store b k with
  | Some a', Some b' => same_growth a' b'
  | None, None => True
  | _, _ => False
  end.
Proof.
  intros Hc Hs Hlen Ht.
  destruct (sc_array_store a k) as [a'|] eqn:Ha.
  - apply store_Some in Ha as [Hin ->].
    assert (0 <= size b < Z.of_nat (length (slots_of b))) as Hinb by lia.
    rewrite (proj2 (store_Some b k _) (conj Hinb eq_refl)).
    split; [unfold observe; simpl; congruence|]. right.
    rewrite !slots_of_Some, !length_insert. simpl. split; [done|].
    assert (Z.to_nat (wrap (size a + 1)) <= S (Z.to_nat (size a)))%nat
      as Hle.
    { unfold wrap. pose proof (Z.mod_le (size a + 1) (2 ^ 64)). lia. }
    replace (Z.to_nat (wrap (size a + 1)))
      with (Z.to_nat (wrap (size a + 1)) `min` S (Z.to_nat (size a)))%nat
      by lia.
    rewrite <-!take_take, <-Hs, !take_S_insert by lia. by rewrite Ht.
  - destruct (sc_array_store b k) as [b'|] eqn:Hb; [|done].
    apply store_Some in Hb as [Hin _].
    assert (0 <= size a < Z.of_nat (length (slots_of a))) as Hina by lia.
    by rewrite (proj2 (store_Some a k _) (conj Hina eq_refl)) in Ha.
Qed.

Lemma same_growth_add ok a b k :
  same_growth a b ->
  match add ok a k, add ok b k with
  | Some a', Some b' => same_growth a' b'
  | None, None => True
  | _, _ => False
  end.
Proof.
  intros [Hobs Halt]. unfold observe in Hobs.
  assert (oom a = oom b /\ cap a = cap b /\ size a = size b)
    as (Ho & Hc & Hs) by (by simplify_eq).
  unfold sc_array_add, sc_array_grow, sc_array_realloc. rewrite <-Hc, <-Hs.
  assert (same_growth (set_oom true a) (set_oom true b)) as Hfail.
  { split; [unfold observe; simpl; congruence|]. done. }
  destruct (Z.eqb_spec (cap a) (size a)) as [Heq|Hne].
  - destruct (grow_refused _ _ _); [done|].
    destruct ok; [|done].
    apply same_growth_store; simpl; rewrite ?slots_of_Some; try done.
    + by rewrite !length_resize.
    + rewrite !take_resize.
      fold (slots_of a) (slots_of b).
      destruct Halt as [[_ Hz]|[Hlen Ht]];
        [rewrite Hz; simpl; by rewrite !resize_0|].
      eapply resize_take_ext; [|done..]. lia.
  - destruct Halt as [[? ?]|[Hlen Ht]]; [lia|].
    by apply same_growth_store.
Qed.

Lemma same_growth_add_trace l a b :
  same_growth a b ->
  add_trace sizeof_T SC_ARRAY_MAX l a = add_trace sizeof_T SC_ARRAY_MAX l b.
Proof.
  revert a b. induction l as [|[ok k] l IH]; intros a b Hab; [done|].
  simpl. pose proof (same_growth_add ok a b k Hab) as Hadd.
  destruct (add ok a k) as [a'|], (add ok b k) as [b'|]; try done.
  rewrite (IH a' b' Hadd), (same_growth_foreach a' b' Hadd).
  by destruct Hadd as [-> _].
Qed.

(** C5: clear.  Clear sets size and capacity to 0 and the flag to false
    and keeps the block behind [elems].  The next append has to grow
    and its growth step computes capacity 8, as on a freshly
    initialised array; and any row of appends shows the same flag,
    capacity, size and contents after each append as it shows on a
    freshly initialised array. *)
Theorem sc_array_clear_then_add a a0 :
  (size (sc_array_clear a) = 0 /\ cap (sc_array_clear a) = 0 /\
   oom (sc_array_clear a) = false /\
   elems (sc_array_clear a) = elems a) /\
  (exists p, grow true (sc_array_clear a) =
     Continue {| oom := false; cap := 8; size := 0; elems := Some p |}) /\
  (exists p, grow true (sc_array_init a0) =
     Continue {| oom := false; cap := 8; size := 0; elems := Some p |}) /\
  (forall l,
     add_trace sizeof_T SC_ARRAY_MAX l (sc_array_clear a)
     = add_trace sizeof_T SC_ARRAY_MAX l (sc_array_init a0)).
Proof.
  assert (grow_refused sizeof_T SC_ARRAY_MAX 0 = false) as Hr.
  { unfold grow_refused. pose proof array_max_range.
    pose proof (Z.div_pos MAX 2). lia. }
  split; [done|].
  split; [|split].
  - eexists. unfold sc_array_grow. simpl. by rewrite Hr.
  - eexists. unfold sc_array_grow. simpl. by rewrite Hr.
  - intros l. apply same_growth_add_trace. split; [done|]. by left.
Qed.


(** *** What a successful append leaves *)

Lemma grow_cap_gt c :
  0 <= c -> grow_refused sizeof_T SC_ARRAY_MAX c = false -> c < grow_cap c.
Proof.
  intros Hc Hr. destruct (Z.eqb_spec c 0) as [->|Hne]; [done|].
  destruct (grow_cap_double c) as [-> _]; [lia|done|lia].
Qed.

Lemma grow_Continue_cases ok a b :
  grow ok a = Continue b ->
  (cap a <> size a /\ b = a) \/
  (cap a = size a /\ grow_refused sizeof_T SC_ARRAY_MAX (cap a) = false /\
   b = {| oom := oom a; cap := grow_cap (cap a); size := size a;
          elems := Some (resize
                           (Z.to_nat (grow_bytes sizeof_T (cap a) / sizeof_T))
                           None (slots_of a)) |}).
Proof.
  clear sizeof_pos max_range. unfold sc_array_grow, sc_array_realloc.
  destruct (Z.eqb_spec (cap a) (size a)) as [Heq|Hne].
  - destruct (grow_refused _ _ _); [done|].
    destruct ok; [|done]. intros [= <-]. by right.
  - intros [= <-]. by left.
Qed.

(** An append that returns with the flag false went through the store:
    the size is one more, the capacity is the old one or the new capacity
    of the growth step, slot [size] holds the element and the slots below
    it are as before. *)
Lemma add_succeeded ok a k a' :
  Z.of_nat (length (slots_of a)) <= SIZE_MAX ->
  add ok a k = Some a' -> oom a' = false ->
  0 <= size a /\ size a' = size a + 1 /\
  Z.of_nat (length (slots_of a')) <= SIZE_MAX /\
  ((cap a <> size a /\ cap a' = cap a) \/
   (cap a = size a /\ grow_refused sizeof_T SC_ARRAY_MAX (cap a) = false /\
    cap a' = grow_cap (cap a))) /\
  slots_of a' !! Z.to_nat (size a) = Some (Some k) /\
  ((Z.to_nat (size a) <= length (slots_of a))%nat ->
   take (Z.to_nat (size a)) (slots_of a')
     = take (Z.to_nat (size a)) (slots_of a)).
Proof.
  clear max_range. intros Hlen Hadd Hoom. unfold sc_array_add in Hadd.
  destruct (grow ok a) as [b|b] eqn:Hg.
  { simplify_eq. apply grow_break in Hg as [-> _]. done. }
  apply store_Some in Hadd as [Hin ->].
  assert (size b = size a /\
          Z.of_nat (length (slots_of b)) <= SIZE_MAX /\
          ((cap a <> size a /\ cap b = cap a) \/
           (cap a = size a /\
            grow_refused sizeof_T SC_ARRAY_MAX (cap a) = false /\
            cap b = grow_cap (cap a))) /\
          ((Z.to_nat (size a) <= length (slots_of a))%nat ->
           take (Z.to_nat (size a)) (slots_of b)
             = take (Z.to_nat (size a)) (slots_of a)))
    as (Hsz & Hlenb & Hcap & Htake).
  { apply grow_Continue_cases in Hg as [[Hne ->]|(Heq & Hr & ->)].
    - split; [done|]. split; [done|]. split; [by left|done].
    - simpl in Hin. rewrite slots_of_Some, length_resize in *.
      split; [done|]. split; [apply realloc_slots_bound|].
      split; [by right|].
      intros Hle. rewrite take_resize_le by lia. by rewrite resize_le. }
  rewrite Hsz in *. rewrite wrap_small by lia. simpl.
  rewrite slots_of_Some.
  split; [lia|]. split; [done|]. split; [by rewrite length_insert|].
  split; [done|]. split.
  - apply list_lookup_insert_eq. lia.
  - intros Hle. rewrite take_insert_ge by done. by apply Htake.
Qed.

Lemma wf_slots_max a :
  wf sizeof_T a -> Z.of_nat (length (slots_of a)) <= SIZE_MAX.
Proof.
  clear max_range. intros Hwf. apply wf_slots in Hwf as (_ & _ & ? & _). nia.
Qed.

Lemma at_take a (n : nat) i :
  0 <= i -> (Z.to_nat i < n)%nat ->
  sc_array_at a i = mjoin (take n (slots_of a) !! Z.to_nat i).
Proof.
  clear sizeof_pos max_range. intros Hi Hn.
  by rewrite at_slots, lookup_take_lt by done.
Qed.

(** X1: a successful append.  When an append to a well-formed array
    returns with the flag false, the size is one more, the capacity has
    not gone down, the element is the last one and is at the index of
    the old size, and every element below that index reads as
    before. *)
Theorem sc_array_add_success ok a k a' :
  wf sizeof_T a -> add ok a k = Some a' -> oom a' = false ->
  size a' = size a + 1 /\ cap a <= cap a' /\
  sc_array_last a' = Some k /\
  sc_array_at a' (size a) = Some k /\
  (forall i, 0 <= i < size a -> sc_array_at a' i = sc_array_at a i).
Proof.
  intros Hwf Hadd Hoom.
  pose proof (wf_slots a Hwf) as (Hs & Hc & _).
  destruct (add_succeeded ok a k a' (wf_slots_max a Hwf) Hadd Hoom)
    as (_ & Hsz & Hlen & Hcap & Hk & Ht).
  assert (sc_array_at a' (size a) = Some k) as Hat.
  { rewrite at_slots by lia. by rewrite Hk. }
  split; [done|]. split; [|split; [|split; [done|]]].
  - destruct Hcap as [[_ ->]|(_ & Hr & ->)]; [lia|].
    pose proof (grow_cap_gt (cap a) ltac:(lia) Hr). lia.
  - unfold sc_array_last. rewrite Hsz.
    replace (size a + 1 - 1) with (size a) by lia.
    pose proof (wf_size_max a Hwf). by rewrite wrap_small by lia.
  - intros i Hi.
    rewrite (at_take a' (Z.to_nat (size a))), (at_take a (Z.to_nat (size a)))
      by lia.
    rewrite Ht; [done|lia].
Qed.


(** *** The flag *)

Lemma store_set_oom o a k :
  sc_array_store (set_oom o a) k = sc_array_store a k.
Proof. done. Qed.

Lemma add_set_oom o ok a k : add ok (set_oom o a) k = add ok a k.
Proof.
  clear sizeof_pos max_range.
  unfold sc_array_add, sc_array_grow, sc_array_realloc. simpl.
  destruct (cap a =? size a); [|done].
  destruct (grow_refused _ _ _); [done|]. by destruct ok.
Qed.

(** X2: an append does not read the flag.  After a failed append the
    next append gives what it gives on the array before the failed one:
    a failed append can be tried again, and it leaves nothing behind but
    the flag, which the next append writes. *)
Theorem sc_array_add_after_failure ok1 ok2 a k1 k2 a1 :
  add ok1 a k1 = Some a1 -> oom a1 = true ->
  add ok2 a1 k2 = add ok2 a k2.
Proof.
  clear sizeof_pos max_range. intros Hadd Hoom.
  rewrite (add_failed _ _ _ _ Hadd Hoom). apply add_set_oom.
Qed.

(** *** Element access *)

(** X3: element access agrees with the traversal.  On an array that a
    traversal shows to hold [l], the size is the length of [l],
    [sc_array_at] at an index below the size is the element of [l] at
    that index, and on a non-empty array [sc_array_last] is the last
    element of [l]. *)
Theorem sc_array_at_foreach a l :
  sc_array_foreach a = Some l -> 0 <= size a <= SIZE_MAX ->
  sc_array_size a = Z.of_nat (length l) /\
  (forall i, 0 <= i < size a -> sc_array_at a i = l !! Z.to_nat i) /\
  (1 <= size a -> sc_array_last a = last l).
Proof.
  clear sizeof_pos max_range. intros Hl Hs.
  apply foreach_Some in Hl as [Ht Hlen].
  assert (forall i, 0 <= i < size a -> sc_array_at a i = l !! Z.to_nat i)
    as Hat.
  { intros i Hi. rewrite (at_take a (Z.to_nat (size a))) by lia.
    rewrite Ht, list_lookup_fmap. by destruct (l !! Z.to_nat i). }
  split; [unfold sc_array_size; lia|]. split; [done|].
  intros H1. unfold sc_array_last. rewrite wrap_small by lia.
  rewrite Hat by lia. rewrite last_lookup. f_equal. lia.
Qed.

(** *** Pop *)

Lemma del_last_defined a l :
  wf sizeof_T a -> sc_array_foreach a = Some l -> 1 <= size a ->
  exists a', sc_array_del_last a = Some a' /\
    a' = set_size (size a - 1) a /\
    sc_array_foreach a' = Some (take (length l - 1) l) /\
    wf sizeof_T a'.
Proof.
  clear max_range. intros Hwf Hl H1.
  pose proof (wf_size_max a Hwf) as Hmax.
  unfold sc_array_del_last. destruct (Z.eqb_spec (size a) 0); [lia|].
  rewrite wrap_small by lia. eexists. split; [done|]. split; [done|].
  split; [|apply (wf_set_size a (size a - 1)); [done|lia]].
  apply foreach_Some in Hl as [Ht Hlen]. apply foreach_Some. simpl.
  change (slots_of {| oom := oom a; cap := cap a; size := size a - 1;
                      elems := elems a |}) with (slots_of a).
  replace (Z.to_nat (size a - 1)) with (length l - 1)%nat by lia.
  split; [|rewrite length_take; lia].
  rewrite fmap_take, <-Ht, take_take. f_equal. lia.
Qed.

(** X4: pop.  On a well-formed array that holds [l], with at least one
    element, pop is defined and the array then holds [l] without its
    last element, with capacity, flag and block as before; the popped
    element stays in its slot, where [sc_array_at] at the new size, an
    index that is no longer below the size, still reads it. *)
Theorem sc_array_del_last_contents a l :
  wf sizeof_T a -> sc_array_foreach a = Some l -> 1 <= size a ->
  exists a', sc_array_del_last a = Some a' /\
    sc_array_foreach a' = Some (take (length l - 1) l) /\
    size a' = size a - 1 /\ cap a' = cap a /\ oom a' = oom a /\
    elems a' = elems a /\
    sc_array_at a' (size a') = sc_array_last a /\
    sc_array_last a = last l.
Proof.
  clear max_range. intros Hwf Hl H1.
  destruct (del_last_defined a l Hwf Hl H1) as (a' & Hd & -> & Hf & _).
  pose proof (wf_size_max a Hwf) as Hmax.
  exists (set_size (size a - 1) a). repeat split; try done.
  - unfold sc_array_last. rewrite wrap_small by lia. done.
  - apply foreach_Some in Hl as [Ht Hlen].
    unfold sc_array_last. rewrite wrap_small by lia.
    rewrite (at_take a (Z.to_nat (size a))) by lia.
    rewrite Ht, list_lookup_fmap, last_lookup.
    replace (Z.to_nat (size a - 1)) with (pred (length l)) by lia.
    by destruct (l !! pred (length l)).
Qed.

(** X5: append, then pop.  After a successful append to a well-formed
    array that holds [l], pop is defined and the array holds [l] again,
    with the size it had before the append. *)
Theorem sc_array_add_del_last ok a k a1 l :
  8 <= MAX -> wf sizeof_T a -> sc_array_foreach a = Some l ->
  add ok a k = Some a1 -> oom a1 = false ->
  exists a2, sc_array_del_last a1 = Some a2 /\
    sc_array_foreach a2 = Some l /\ size a2 = size a /\
    cap a2 = cap a1 /\ cap a <= cap a2.
Proof.
  intros H8 Hwf Hl Hadd Hoom.
  pose proof (add_wf_Some ok a k a1 H8 Hwf Hadd) as Hwf1.
  destruct (add_foreach ok a k a1 l Hadd Hoom (wf_slots_max a Hwf) Hl)
    as (Hl1 & Hsz & _).
  pose proof (wf_slots a Hwf) as (Hs & _).
  destruct (del_last_defined a1 (l ++ [k]) Hwf1 Hl1 ltac:(lia))
    as (a2 & Hd & -> & Hf & _).
  exists (set_size (size a1 - 1) a1). split; [done|].
  rewrite length_app in Hf. simpl in Hf.
  replace (length l + 1 - 1)%nat with (length l) in Hf by lia.
  rewrite take_app_length in Hf.
  split; [done|]. split; [simpl; lia|]. split; [done|]. simpl.
  destruct (add_succeeded ok a k a1 (wf_slots_max a Hwf) Hadd Hoom)
    as (_ & _ & _ & Hcap & _).
  destruct Hcap as [[_ ->]|(_ & Hr & ->)]; [lia|].
  pose proof (grow_cap_gt (cap a) ltac:(lia) Hr). lia.
Qed.


(** *** Requests out of range *)

(** X6: requests out of range.  On a well-formed array, the last element
    of an empty array is read outside the block and pop of an empty
    array stops at its [assert]; a delete, ordered or not, at an index
    from the size on stops at its [assert], however the index of the
    unordered delete is written. *)
Theorem sc_array_out_of_range a i :
  wf sizeof_T a ->
  (size a = 0 ->
     sc_array_last a = None /\ sc_array_del_last a = None) /\
  (size a <= i <= SIZE_MAX ->
     del a i = None /\
     forall ix, index_value ix (size a) = i ->
       sc_array_del_unordered a ix = None).
Proof.
  clear max_range. intros Hwf. split.
  - intros Hz. split.
    + unfold sc_array_last. rewrite Hz. rewrite at_slots by done.
      pose proof (wf_slots_max a Hwf).
      rewrite (lookup_ge_None_2 (slots_of a)); [done|].
      change (wrap (0 - 1)) with SIZE_MAX. lia.
    + unfold sc_array_del_last. by rewrite Hz.
  - intros Hi. pose proof (wf_slots a Hwf) as (Hs & _). split.
    + unfold sc_array_del. rewrite wrap_small by lia.
      by destruct (Z.ltb_spec i (size a)); [lia|].
    + intros ix <-. unfold sc_array_del_unordered.
      rewrite wrap_small by lia.
      by destruct (Z.ltb_spec (index_value ix (size a)) (size a)); [lia|].
Qed.

(** X7: a negative index.  With elements of two bytes or more, a delete,
    ordered or not, at a negative index of 64 bits stops at its [assert]
    on every well-formed array: converted to [size_t] the index is at
    least [2 ^ 63], and no block has that many elements. *)
Theorem sc_array_del_negative_index a i :
  wf sizeof_T a -> 2 <= sizeof_T -> - 2 ^ 63 <= i < 0 ->
  wrap i = i + 2 ^ 64 /\ size a <= wrap i /\
  del a i = None /\
  forall ix, index_value ix (size a) = i ->
    sc_array_del_unordered a ix = None.
Proof.
  clear max_range sizeof_pos. intros Hwf H2 Hi.
  assert (wrap i = i + 2 ^ 64) as Hw.
  { unfold wrap. symmetry. apply (Z.mod_unique i (2 ^ 64) (-1)); lia. }
  pose proof (wf_slots a Hwf) as (Hs & Hc & Hb & _).
  assert (size a < 2 ^ 63) as Hlt by (unfold SIZE_MAX in Hb; nia).
  split; [done|]. split; [lia|]. split.
  - unfold sc_array_del.
    by destruct (Z.ltb_spec (wrap i) (size a)); [lia|].
  - intros ix Hix. unfold sc_array_del_unordered. rewrite Hix.
    by destruct (Z.ltb_spec (wrap i) (size a)); [lia|].
Qed.

(** *** The capacity along a run *)

(** What one operation does to the capacity: it writes zero, or keeps
    it, or, for an append on a full array that passes line 88, writes
    the new capacity. *)
Lemma step_cap o a a' :
  step sizeof_T SC_ARRAY_MAX o a = Some a' ->
  (is_reset o = true /\ cap a' = 0) \/
  (is_reset o = false /\
   (cap a' = cap a \/
    (cap a = size a /\ grow_refused sizeof_T SC_ARRAY_MAX (cap a) = false /\
     cap a' = grow_cap (cap a)))).
Proof.
  clear sizeof_pos max_range. intros Hstep.
  destruct o; simpl in Hstep; simplify_eq; try (by left); right;
    (split; [done|]).
  - unfold sc_array_add in Hstep.
    destruct (grow ok a) as [b|b] eqn:Hg.
    + simplify_eq. apply grow_break in Hg as [-> _]. by left.
    + apply store_Some in Hstep as [_ ->]. simpl.
      apply grow_Continue_cases in Hg as [[_ ->]|(? & ? & ->)];
        [by left|by right].
  - unfold sc_array_del in Hstep.
    destruct (wrap i <? size a); [|done].
    destruct (if del_cnt a i >? 0 then _ else _); simplify_eq. by left.
  - rewrite del_unordered_Val in Hstep. unfold swap_last in Hstep.
    destruct (wrap i <? size a); [|done].
    destruct (elems a); [|done]. destruct (_ !! _); [|done].
    destruct (_ && _); simplify_eq. by left.
  - unfold sc_array_del_last in Hstep.
    destruct (size a =? 0); simplify_eq. by left.
Qed.

Lemma run_cap_max os a a' :
  8 <= MAX -> 0 <= cap a <= MAX ->
  run sizeof_T SC_ARRAY_MAX os a = Some a' -> 0 <= cap a' <= MAX.
Proof.
  intros H8. revert a. induction os as [|o os IH]; intros a Hc Hrun.
  - by simplify_eq/=.
  - simpl in Hrun.
    destruct (step _ _ o a) as [a1|] eqn:Hstep; [|done].
    apply (IH a1); [|done].
    apply step_cap in Hstep as [[_ ->]|[_ [->|(_ & Hr & ->)]]]; [lia|done|].
    pose proof (grow_no_overflow (cap a) H8 ltac:(lia) Hr). lia.
Qed.

(** X8: I1 along every run.  Where [MAX] is at least 8, every array
    reached from a freshly initialised one by init, append, the deletes,
    pop, clear and term is well-formed: [0 <= size <= cap], the block
    behind [elems] has room for [cap] elements, and the first [size]
    slots are written, so that a traversal is defined and yields [size]
    elements. *)
Theorem reachable_well_formed os a0 a :
  8 <= MAX ->
  run sizeof_T SC_ARRAY_MAX os (sc_array_init a0) = Some a ->
  wf sizeof_T a /\ 0 <= size a <= cap a /\
  cap a <= Z.of_nat (length (slots_of a)) /\
  exists l, sc_array_foreach a = Some l /\ Z.of_nat (length l) = size a.
Proof.
  intros H8 Hrun.
  pose proof (run_wf os _ a H8 (init_wf a0) Hrun) as Hwf.
  pose proof (wf_slots a Hwf) as (Hs & Hc & _).
  destruct (wf_foreach a Hwf) as [l Hl].
  split; [done|]. split; [done|]. split; [done|].
  exists l. split; [done|].
  apply foreach_Some in Hl as [_ Hlen]. lia.
Qed.

(** X9: the limit.  Where [MAX] is at least 8, in every array reached
    from a freshly initialised one the capacity, and so the size, is at
    most [MAX], and the capacity in bytes is at most [SC_ARRAY_MAX]. *)
Theorem reachable_within_max os a0 a :
  8 <= MAX ->
  run sizeof_T SC_ARRAY_MAX os (sc_array_init a0) = Some a ->
  size a <= MAX /\ cap a <= MAX /\ cap a * sizeof_T <= SC_ARRAY_MAX.
Proof.
  intros H8 Hrun.
  pose proof (run_wf os _ a H8 (init_wf a0) Hrun) as Hwf.
  pose proof (wf_slots a Hwf) as (Hs & _).
  assert (0 <= cap (sc_array_init a0) <= MAX) as Hc0 by (simpl; lia).
  pose proof (run_cap_max os _ a H8 Hc0 Hrun) as Hc.
  split; [lia|]. split; [lia|].
  unfold array_max in Hc.
  pose proof (Z.mul_div_le SC_ARRAY_MAX sizeof_T ltac:(lia)). nia.
Qed.

(** X10: the capacities.  In every array reached from a freshly
    initialised one the capacity is 0 or 8 times a power of two. *)
Theorem reachable_cap_power_of_two os a0 a :
  run sizeof_T SC_ARRAY_MAX os (sc_array_init a0) = Some a ->
  cap a = 0 \/ exists j : nat, cap a = 8 * 2 ^ Z.of_nat j.
Proof.
  assert (forall os a a',
    (cap a = 0 \/ exists j : nat, cap a = 8 * 2 ^ Z.of_nat j) ->
    run sizeof_T SC_ARRAY_MAX os a = Some a' ->
    cap a' = 0 \/ exists j : nat, cap a' = 8 * 2 ^ Z.of_nat j) as Hgen.
  { clear os a0 a. induction os as [|o os IH]; intros a a' Hc Hrun.
    - by simplify_eq/=.
    - simpl in Hrun.
      destruct (step _ _ o a) as [a1|] eqn:Hstep; [|done].
      apply (IH a1); [|done].
      apply step_cap in Hstep as [[_ ->]|[_ [->|(_ & Hr & ->)]]];
        [by left|done|].
      right. destruct Hc as [->|[j Hj]]; [by exists 0%nat|].
      exists (S j).
      destruct (grow_cap_double (cap a)) as [-> _]; [lia|done|].
      rewrite Hj, Nat2Z.inj_succ, Z.pow_succ_r by lia. lia. }
  intros Hrun. eapply Hgen; [|done]. by left.
Qed.

(** X11: the capacity never goes down.  Along a run of appends, deletes
    and pops (no init, clear or term) the capacity at the end is at
    least the capacity at the start. *)
Theorem cap_monotone os a a' :
  forallb (fun o => negb (is_reset o)) os = true -> 0 <= cap a ->
  run sizeof_T SC_ARRAY_MAX os a = Some a' ->
  cap a <= cap a'.
Proof.
  revert a. induction os as [|o os IH]; intros a Hnr Hc Hrun.
  - simplify_eq/=. lia.
  - simpl in *. apply andb_prop in Hnr as [Ho Hos].
    destruct (step _ _ o a) as [a1|] eqn:Hstep; [|done].
    apply step_cap in Hstep as [[Hr _]|[_ Hcap]].
    { by rewrite Hr in Ho. }
    assert (cap a <= cap a1) as Hle.
    { destruct Hcap as [->|(_ & Hr & ->)]; [lia|].
      pose proof (grow_cap_gt (cap a) Hc Hr). lia. }
    specialize (IH a1 Hos ltac:(lia) Hrun). lia.
Qed.

(** X12: the block is kept.  Along a run without init and term, an
    array that has a block keeps having one: no append, failed or not,
    no delete, no pop and no clear sets [elems] to NULL. *)
Theorem block_kept os a a' :
  forallb (fun o => negb (is_release o)) os = true ->
  is_Some (elems a) ->
  run sizeof_T SC_ARRAY_MAX os a = Some a' ->
  is_Some (elems a').
Proof.
  clear sizeof_pos max_range.
  revert a. induction os as [|o os IH]; intros a Hnr He Hrun.
  - by simplify_eq/=.
  - simpl in *. apply andb_prop in Hnr as [Ho Hos].
    destruct (step _ _ o a) as [a1|] eqn:Hstep; [|done].
    apply (IH a1); [done| |done].
    destruct o; simpl in *; simplify_eq; try done.
    + unfold sc_array_add in Hstep.
      destruct (grow ok a) as [b|b] eqn:Hg.
      * simplify_eq. by apply grow_break in Hg as [-> _].
      * by apply store_Some in Hstep as [_ ->].
    + unfold sc_array_del in Hstep.
      destruct (wrap i <? size a); [|done].
      destruct (del_cnt a i >? 0).
      * destruct (elems a); [|done].
        by destruct (memmove _ _ _ _); simplify_eq/=.
      * by simplify_eq.
    + rewrite del_unordered_Val in Hstep. unfold swap_last in Hstep.
      destruct (wrap i <? size a); [|done].
      destruct (elems a); [|done]. destruct (_ !! _); [|done].
      by destruct (_ && _); simplify_eq.
    + unfold sc_array_del_last in Hstep.
      by destruct (size a =? 0); simplify_eq.
Qed.


(** *** Appends only *)

Lemma appended_half_full a es a' :
  appended sizeof_T SC_ARRAY_MAX a es a' ->
  Z.of_nat (length (slots_of a)) <= SIZE_MAX ->
  0 <= size a <= cap a -> cap a <= Z.max 8 (2 * (size a - 1)) ->
  size a' <= cap a' /\ cap a' <= Z.max 8 (2 * (size a' - 1)).
Proof.
  induction 1 as [a|a ok k a1 es a' Hadd Hoom _ IH]; intros Hlen Hs Hc.
  - split; lia.
  - destruct (add_succeeded ok a k a1 Hlen Hadd Hoom)
      as (_ & Hsz & Hlen1 & Hcap & _).
    apply IH; [done| |].
    + destruct Hcap as [[Hne ->]|(Heq & Hr & ->)]; [lia|].
      pose proof (grow_cap_gt (cap a) ltac:(lia) Hr). lia.
    + destruct Hcap as [[Hne ->]|(Heq & Hr & ->)]; [lia|].
      destruct (Z.eqb_spec (cap a) 0) as [Hz|Hnz].
      * rewrite Hz. change (grow_cap 0) with 8. lia.
      * destruct (grow_cap_double (cap a)) as [-> _]; [lia|done|lia].
Qed.

(** X13: at least half full.  After any row of successful appends to a
    freshly initialised array the size is at most the capacity, and the
    capacity is 8 or at most twice the size less two: beyond the first
    eight slots the block is never more than twice what is in use. *)
Theorem appended_cap_bound a0 es a :
  appended sizeof_T SC_ARRAY_MAX (sc_array_init a0) es a ->
  size a = Z.of_nat (length es) /\
  size a <= cap a /\ cap a <= Z.max 8 (2 * (size a - 1)).
Proof.
  intros Happ.
  destruct (appended_foreach _ _ _ [] Happ) as [_ Hs]; [done..|].
  split; [simpl in Hs; lia|].
  apply (appended_half_full _ _ _ Happ); simpl; [done|lia|lia].
Qed.

(** *** The two deletes *)

(** X14: the two deletes at an index that is a value.  On a
    well-formed array that holds [l], with [i < size], ordered delete at
    [i] and unordered delete at an index expression that does not read
    the size and has the value [i] are both defined and leave arrays of
    the same size, capacity and flag whose contents are permutations of
    each other; they are equal when [i] is the last index.  With an
    index expression that reads the size the unordered delete has no
    defined result, on any array. *)
Theorem sc_array_del_del_unordered a i l :
  wf sizeof_T a -> sc_array_foreach a = Some l -> 0 <= i < size a ->
  (exists a1 a2 l1 l2,
     del a i = Some a1 /\ sc_array_del_unordered a (Val i) = Some a2 /\
     sc_array_foreach a1 = Some l1 /\ sc_array_foreach a2 = Some l2 /\
     l1 ≡ₚ l2 /\
     size a1 = size a2 /\ cap a1 = cap a2 /\ oom a1 = oom a2 /\
     (i = size a - 1 -> l1 = l2)) /\
  (forall ix, reads_size ix = true -> sc_array_del_unordered a ix = None).
Proof.
  clear max_range. intros Hwf Hl Hi. split; cycle 1.
  { intros ix Hix. unfold sc_array_del_unordered. rewrite Hix.
    by destruct (_ <? _). }
  destruct (del_defined a i l Hwf Hl Hi)
    as (a1 & Hd1 & Hf1 & Hs1 & Hc1 & Ho1 & _).
  destruct (del_unordered_defined a i l Hwf Hl Hi)
    as (a2 & y & Hy & Hd2 & _ & Hf2 & Hs2 & Hc2 & Ho2 & _).
  pose proof Hl as Hl'. apply foreach_Some in Hl' as [_ Hlen].
  destruct (lookup_lt_is_Some_2 l (Z.to_nat i)) as [x Hx]; [lia|].
  replace (Z.to_nat (size a - 1)) with (length l - 1)%nat in * by lia.
  exists a1, a2, (delete (Z.to_nat i) l),
    (take (length l - 1) (<[Z.to_nat i := y]> l)).
  repeat split; try done; try congruence.
  - apply (Permutation_cons_inv (a := x)).
    rewrite <-(delete_Permutation l _ x Hx).
    symmetry. by apply swap_remove_Permutation.
  - intros ->.
    replace (Z.to_nat (size a - 1)) with (length l - 1)%nat in * by lia.
    rewrite list_insert_id by congruence.
    rewrite delete_take_drop, drop_ge by lia. by rewrite app_nil_r.
Qed.


(** *** The flag after deletes *)

Lemma step_delete_oom o a a' :
  is_delete o = true ->
  step sizeof_T SC_ARRAY_MAX o a = Some a' -> oom a' = oom a.
Proof.
  clear sizeof_pos max_range. intros Hd Hstep.
  destruct o; simpl in *; try done.
  - unfold sc_array_del in Hstep.
    destruct (wrap i <? size a); [|done].
    by destruct (if del_cnt a i >? 0 then _ else _); simplify_eq.
  - rewrite del_unordered_Val in Hstep. unfold swap_last in Hstep.
    destruct (wrap i <? size a); [|done].
    destruct (elems a); [|done]. destruct (_ !! _); [|done].
    by destruct (_ && _); simplify_eq.
  - unfold sc_array_del_last in Hstep.
    by destruct (size a =? 0); simplify_eq.
Qed.

(** X16: the flag reports the last append.  After an append and any row
    of deletes and pops, [sc_array_oom] is what the append left: it is
    true exactly when that append failed, that is when the append left
    the array as it was but for the flag. *)
Theorem sc_array_oom_last_add ok a k a1 os a' :
  add ok a k = Some a1 ->
  forallb is_delete os = true ->
  run sizeof_T SC_ARRAY_MAX os a1 = Some a' ->
  sc_array_oom a' = oom a1 /\
  (sc_array_oom a' = true <-> a1 = set_oom true a).
Proof.
  clear sizeof_pos max_range. intros Hadd Hdel Hrun.
  assert (oom a' = oom a1) as Ho.
  { clear Hadd. revert a1 Hrun.
    induction os as [|o os IH]; intros a1 Hrun; [by simplify_eq/=|].
    simpl in *. apply andb_prop in Hdel as [Hd Hds].
    destruct (step _ _ o a1) as [a2|] eqn:Hstep; [|done].
    rewrite (IH Hds a2 Hrun). by eapply step_delete_oom. }
  unfold sc_array_oom. split; [done|]. rewrite Ho. split.
  - intros Ht. by apply (add_failed ok a k).
  - by intros ->.
Qed.


End theory.

(** ** Unordered delete: the index is read while the size is written *)

(** C8: line 166 evaluates the index in the expression that decrements
    the size.  On the [int] array holding [10; 20; 30; 40; 50], with the
    index written [(a)->size - 1], the last valid index 4, the [assert]
    passes and the unordered delete has no defined result; a compiler
    that decrements first writes the last element into slot 3 and the
    array then holds [10; 20; 30; 50].  Pop, and ordered delete at the
    same index, leave [10; 20; 30; 40], and so does unordered delete when
    the index is given as the value 4. *)
Theorem sc_array_del_unordered_index_reads_size :
  sc_array_foreach sc_array_int.five = Some [10; 20; 30; 40; 50] /\
  index_value size_minus_one (size sc_array_int.five) = 4 /\
  sc_array_del_unordered sc_array_int.five size_minus_one = None /\
  (del_unordered_decrement_first sc_array_int.five size_minus_one
     ≫= sc_array_foreach) = Some [10; 20; 30; 50] /\
  (sc_array_del_last sc_array_int.five ≫= sc_array_foreach)
    = Some [10; 20; 30; 40] /\
  (sc_array_del sc_array_int.sizeof_int sc_array_int.five
     (index_value size_minus_one (size sc_array_int.five))
     ≫= sc_array_foreach) = Some [10; 20; 30; 40] /\
  (sc_array_del_unordered sc_array_int.five (Val 4) ≫= sc_array_foreach)
    = Some [10; 20; 30; 40].
Proof. repeat split; vm_compute; reflexivity. Qed.

(** ** Sorting: the width given to [qsort] *)

(** C3: [sc_array_sort] gives [qsort] the value of the first element as
    the width of an element.  On a fresh array it reads through the NULL
    pointer; on an [int] array holding [8; 1], in a block whose next two
    slots hold 0 from elements popped before, it sorts two objects of
    eight bytes and the array then holds [0; 0]: not a permutation of its
    elements. *)
Theorem sc_array_sort_wrong_width :
  sc_array_int.sort sc_array_int.fresh = None /\
  sc_array_int.run
    [Add true 8; Add true 1; Add true 0; Add true 0; DelLast; DelLast]
    sc_array_int.fresh = Some sc_array_int.two_of_four /\
  sc_array_foreach sc_array_int.two_of_four = Some [8; 1] /\
  sc_array_int.sort sc_array_int.two_of_four
    = Some (set_elems
              (Some ((Some <$> [0; 0; 8; 1]) ++ [None; None; None; None]))
              sc_array_int.two_of_four) /\
  (sc_array_int.sort sc_array_int.two_of_four ≫= sc_array_foreach)
    = Some [0; 0].
Proof. repeat split; vm_compute; reflexivity. Qed.

(** ** The capacity of the first growth *)

(** C6: the check of [sc_array_add] does not cover the first growth.
    With [SC_ARRAY_MAX = SIZE_MAX] and elements of [2 ^ 61] bytes, [MAX]
    is 7 and capacity 0 passes the check; the new capacity is 8, the byte
    count [8 * 2 ^ 61] wraps to 0, the growth step records capacity 8
    for a block of no slot and the store of the element is outside the
    block.  With [SC_ARRAY_MAX = 16] and elements of 8 bytes, [MAX] is 2
    and the append leaves capacity 8, above [MAX], in a block of 64
    bytes. *)
Theorem grow_cap_first_growth_exceeds_max :
  (array_max (2 ^ 61) SIZE_MAX = 7 /\
   grow_refused (2 ^ 61) SIZE_MAX 0 = false /\
   grow_cap 0 = 8 /\
   grow_cap 0 * 2 ^ 61 = SIZE_MAX + 1 /\
   grow_bytes (2 ^ 61) 0 = 0 /\
   sc_array_grow (2 ^ 61) SIZE_MAX true sc_array_int.fresh =
     Continue {| oom := false; cap := 8; size := 0; elems := Some [] |} /\
   sc_array_add (2 ^ 61) SIZE_MAX true sc_array_int.fresh 1 = None) /\
  (array_max 8 16 = 2 /\
   grow_refused 8 16 0 = false /\
   grow_cap 0 = 8 /\
   grow_bytes 8 0 = 64 /\
   sc_array_add 8 16 true sc_array_int.fresh 1 =
     Some {| oom := false; cap := 8; size := 1;
             elems := Some [Some 1; None; None; None; None; None; None;
                            None] |}).
Proof. vm_compute. repeat split. Qed.

(** ** Concrete runs

    The statements above at arrays of [int], with [SC_ARRAY_MAX] at its
    default. *)

Lemma sizeof_int_pos : 1 <= sc_array_int.sizeof_int.
Proof. done. Qed.

Lemma size_max_range : 0 <= SIZE_MAX <= SIZE_MAX.
Proof. done. Qed.

Lemma wf_five : wf sc_array_int.sizeof_int sc_array_int.five.
Proof.
  split; [done|]. simpl. repeat split; [done..|].
  repeat constructor; by eexists.
Qed.

(** Scenario E: the allocation for the growth from capacity 8 fails. *)
Lemma sc_array_add_failure_atomic_witness :
  sc_array_int.add false sc_array_int.full8 18
    = Some (set_oom true sc_array_int.full8).
Proof.
  destruct (sc_array_add_failure_atomic sc_array_int.sizeof_int SIZE_MAX
              false sc_array_int.full8 18) as [_ H].
  destruct H as (a' & Hadd & Hoom & Hs & Hc & He & Hf); [reflexivity..|].
  unfold sc_array_int.add. rewrite Hadd. f_equal.
  destruct a'; simpl in *; subst. reflexivity.
Defined.


(** A run without clear that ends with capacity 0. *)
Lemma cap_zero_no_block_without_clear_witness :
  sc_array_int.run [Add true 1; DelLast; Term] sc_array_int.fresh
    = Some sc_array_int.fresh /\
  cap sc_array_int.fresh = 0 /\
  elems sc_array_int.fresh = None.
Proof.
  assert (sc_array_int.run [Add true 1; DelLast; Term] sc_array_int.fresh
          = Some sc_array_int.fresh) as Hrun by (vm_compute; reflexivity).
  destruct (cap_zero_no_block_without_clear sc_array_int.sizeof_int SIZE_MAX
              sizeof_int_pos size_max_range
              [Add true 1; DelLast; Term] sc_array_int.fresh
              sc_array_int.fresh)
    as (H & _); [reflexivity|exact Hrun|].
  split; [exact Hrun|]. split; [reflexivity|]. apply H. reflexivity.
Defined.

(** After clear the first growth computes capacity 8, for a block of
    eight slots that starts with the old contents. *)
Lemma sc_array_clear_then_add_witness :
  cap (sc_array_clear sc_array_int.five) = 0 /\
  elems (sc_array_clear sc_array_int.five) = elems sc_array_int.five /\
  add_trace sc_array_int.sizeof_int SIZE_MAX [(true, 7); (false, 8)]
    (sc_array_clear sc_array_int.five)
  = [Some (false, 8, 1, Some [7]); Some (false, 8, 2, Some [7; 8])].
Proof.
  destruct (sc_array_clear_then_add sc_array_int.sizeof_int SIZE_MAX
              sizeof_int_pos size_max_range sc_array_int.five
              sc_array_int.fresh) as ((_ & Hc & _ & He) & _ & _ & Htr).
  split; [exact Hc|]. split; [exact He|].
  rewrite Htr. reflexivity.
Defined.

(** Scenario C: ordered delete at index 1 of five elements. *)
Lemma sc_array_del_preserves_order_witness :
  exists a',
    sc_array_del sc_array_int.sizeof_int sc_array_int.five 1 = Some a' /\
    sc_array_foreach a' = Some [10; 30; 40; 50] /\
    size a' = 4 /\ cap a' = 8.
Proof.
  destruct (sc_array_del_preserves_order sc_array_int.sizeof_int
              sizeof_int_pos sc_array_int.five 1 [10; 20; 30; 40; 50]
              wf_five)
    as (a' & Hd & Hf & Hs & Hc & _); [reflexivity|simpl; lia|].
  exists a'. repeat split; assumption.
Defined.

(** Scenario D: unordered delete at the index 1, a value, of five
    elements. *)
Lemma sc_array_del_unordered_swap_remove_witness :
  exists a',
    sc_array_del_unordered sc_array_int.five (Val 1) = Some a' /\
    sc_array_foreach a' = Some [10; 50; 30; 40] /\
    size a' = 4.
Proof.
  destruct (sc_array_del_unordered_swap_remove sc_array_int.sizeof_int
              sizeof_int_pos sc_array_int.five 1 [10; 20; 30; 40; 50]
              wf_five)
    as (a' & y & l' & _ & Hd & _ & Hs & _ & _ & Hf & _ & _ & Hex & _);
    [reflexivity|simpl; lia|].
  exists a'. rewrite Hf, (Hex 10 20 30 40 50 eq_refl eq_refl).
  repeat split; assumption.
Defined.

(** Scenario A: nine appends to a fresh array, capacity 0, 8, 16. *)
Lemma sc_array_add_foreach_round_trip_witness :
  add_all sc_array_int.sizeof_int SIZE_MAX [0; 1; 2; 3; 4; 5; 6; 7; 8]
    sc_array_int.fresh = Some sc_array_int.nine /\
  sc_array_foreach sc_array_int.nine = Some [0; 1; 2; 3; 4; 5; 6; 7; 8] /\
  size sc_array_int.nine = 9.
Proof.
  assert (add_all sc_array_int.sizeof_int SIZE_MAX [0; 1; 2; 3; 4; 5; 6; 7; 8]
            sc_array_int.fresh = Some sc_array_int.nine) as Hall
    by (vm_compute; reflexivity).
  split; [exact Hall|].
  apply (sc_array_add_foreach_round_trip sc_array_int.sizeof_int SIZE_MAX
           sizeof_int_pos sc_array_int.fresh).
  apply add_all_appended. exact Hall.
Defined.

(** Ordered delete at index 4 of five elements is pop. *)
Lemma sc_array_del_at_last_is_del_last_witness :
  sc_array_del sc_array_int.sizeof_int sc_array_int.five 4
    = sc_array_del_last sc_array_int.five /\
  sc_array_del_last sc_array_int.five
    = Some (set_size 4 sc_array_int.five).
Proof.
  destruct (sc_array_del_at_last_is_del_last sc_array_int.sizeof_int
              sc_array_int.five) as (_ & Hd & Hp); [done..|].
  split; [exact Hd|exact Hp].
Defined.

(** C4 as stated fails: after an append and a clear the capacity is 0
    and the array still has its block. *)
Lemma cap_zero_with_block_after_clear :
  ~ (forall (os : list (op Z)) (a : sc_array_int.t),
       sc_array_int.run os sc_array_int.fresh = Some a ->
       cap a = 0 -> elems a = None).
Proof.
  intros H.
  assert (sc_array_int.run [Add true 1; Clear] sc_array_int.fresh
          = Some (sc_array_clear
                    (mk_array false 8 1
                       (Some [Some 1; None; None; None; None; None; None;
                              None])))) as Hrun
    by (vm_compute; reflexivity).
  specialize (H _ _ Hrun eq_refl). discriminate H.
Qed.

(** ** Concrete runs of the further properties *)

Lemma int_max_ge_8 : 8 <= array_max sc_array_int.sizeof_int SIZE_MAX.
Proof. vm_compute. congruence. Qed.

Lemma wf_full8 : wf sc_array_int.sizeof_int sc_array_int.full8.
Proof.
  split; [done|]. simpl. repeat split; [done..|].
  repeat constructor; by eexists.
Qed.

Lemma wf_fresh : wf sc_array_int.sizeof_int sc_array_int.fresh.
Proof. by split. Qed.

Lemma add_five_six :
  sc_array_add sc_array_int.sizeof_int SIZE_MAX true sc_array_int.five 60
  = Some sc_array_int.six.
Proof. vm_compute. reflexivity. Qed.

Lemma foreach_five :
  sc_array_foreach sc_array_int.five = Some [10; 20; 30; 40; 50].
Proof. vm_compute. reflexivity. Qed.

Lemma run_mixed :
  run sc_array_int.sizeof_int SIZE_MAX sc_array_int.mixed_ops
    (sc_array_init sc_array_int.fresh) = Some sc_array_int.mixed.
Proof. vm_compute. reflexivity. Qed.

Lemma run_nine_adds :
  run sc_array_int.sizeof_int SIZE_MAX sc_array_int.nine_adds
    sc_array_int.fresh = Some sc_array_int.nine.
Proof. vm_compute. reflexivity. Qed.

Lemma add_full8_fails :
  sc_array_add sc_array_int.sizeof_int SIZE_MAX false sc_array_int.full8 18
  = Some (set_oom true sc_array_int.full8).
Proof. vm_compute. reflexivity. Qed.

Lemma sc_array_add_success_witness :
  size sc_array_int.six = size sc_array_int.five + 1 /\
  cap sc_array_int.five <= cap sc_array_int.six /\
  sc_array_last sc_array_int.six = Some 60 /\
  sc_array_at sc_array_int.six (size sc_array_int.five) = Some 60 /\
  (forall i, 0 <= i < size sc_array_int.five ->
     sc_array_at sc_array_int.six i = sc_array_at sc_array_int.five i).
Proof.
  exact (sc_array_add_success sc_array_int.sizeof_int SIZE_MAX
           sizeof_int_pos size_max_range true sc_array_int.five 60
           sc_array_int.six wf_five add_five_six eq_refl).
Defined.

Lemma sc_array_add_after_failure_witness :
  sc_array_add sc_array_int.sizeof_int SIZE_MAX true
    (set_oom true sc_array_int.full8) 19
  = sc_array_add sc_array_int.sizeof_int SIZE_MAX true
      sc_array_int.full8 19.
Proof.
  exact (sc_array_add_after_failure sc_array_int.sizeof_int SIZE_MAX
           false true sc_array_int.full8 18 19 _ add_full8_fails eq_refl).
Defined.

Lemma sc_array_at_foreach_witness :
  sc_array_size sc_array_int.five = 5 /\
  (forall i, 0 <= i < size sc_array_int.five ->
     sc_array_at sc_array_int.five i = [10; 20; 30; 40; 50] !! Z.to_nat i) /\
  (1 <= size sc_array_int.five ->
     sc_array_last sc_array_int.five = last [10; 20; 30; 40; 50]).
Proof.
  apply (sc_array_at_foreach sc_array_int.five [10; 20; 30; 40; 50]
           foreach_five).
  done.
Defined.

Lemma sc_array_del_last_contents_witness :
  exists a',
    sc_array_del_last sc_array_int.five = Some a' /\
    sc_array_foreach a' = Some [10; 20; 30; 40] /\
    size a' = 4 /\
    sc_array_at a' (size a') = Some 50.
Proof.
  destruct (sc_array_del_last_contents sc_array_int.sizeof_int
              sizeof_int_pos sc_array_int.five [10; 20; 30; 40; 50]
              wf_five foreach_five)
    as (a' & Hd & Hf & Hs & _ & _ & _ & Hat & _); [done|].
  exists a'. split; [exact Hd|]. split; [exact Hf|]. split; [exact Hs|].
  rewrite Hat. reflexivity.
Defined.

Lemma sc_array_add_del_last_witness :
  exists a2,
    sc_array_del_last sc_array_int.six = Some a2 /\
    sc_array_foreach a2 = Some [10; 20; 30; 40; 50] /\
    size a2 = size sc_array_int.five.
Proof.
  destruct (sc_array_add_del_last sc_array_int.sizeof_int SIZE_MAX
              sizeof_int_pos size_max_range true sc_array_int.five 60
              sc_array_int.six [10; 20; 30; 40; 50] int_max_ge_8 wf_five
              foreach_five add_five_six eq_refl)
    as (a2 & Hd & Hf & Hs & _).
  exists a2. split; [exact Hd|]. split; [exact Hf|exact Hs].
Defined.

Lemma sc_array_out_of_range_witness :
  (sc_array_last sc_array_int.fresh = None /\
   sc_array_del_last sc_array_int.fresh = None) /\
  (sc_array_del sc_array_int.sizeof_int sc_array_int.five 5 = None /\
   sc_array_del_unordered sc_array_int.five (Val 5) = None /\
   sc_array_del_unordered sc_array_int.five (OfSize (fun sz => sz))
     = None).
Proof.
  split.
  - apply (sc_array_out_of_range sc_array_int.sizeof_int sizeof_int_pos
             sc_array_int.fresh 0 wf_fresh). reflexivity.
  - destruct (sc_array_out_of_range sc_array_int.sizeof_int sizeof_int_pos
                sc_array_int.five 5 wf_five) as [_ H].
    destruct H as [Hd Hu]; [done|].
    split; [exact Hd|]. split; apply Hu; reflexivity.
Defined.

Lemma sc_array_del_negative_index_witness :
  wrap (-1) = -1 + 2 ^ 64 /\
  size sc_array_int.five <= wrap (-1) /\
  sc_array_del sc_array_int.sizeof_int sc_array_int.five (-1) = None /\
  sc_array_del_unordered sc_array_int.five (Val (-1)) = None.
Proof.
  destruct (sc_array_del_negative_index sc_array_int.sizeof_int
              sc_array_int.five (-1) wf_five) as (Hw & Hs & Hd & Hu);
    [done..|].
  split; [exact Hw|]. split; [exact Hs|]. split; [exact Hd|].
  apply Hu. reflexivity.
Defined.

Lemma reachable_well_formed_witness :
  wf sc_array_int.sizeof_int sc_array_int.mixed /\
  0 <= size sc_array_int.mixed <= cap sc_array_int.mixed /\
  cap sc_array_int.mixed
    <= Z.of_nat (length (slots_of sc_array_int.mixed)) /\
  exists l, sc_array_foreach sc_array_int.mixed = Some l /\
            Z.of_nat (length l) = size sc_array_int.mixed.
Proof.
  exact (reachable_well_formed sc_array_int.sizeof_int SIZE_MAX
           sizeof_int_pos size_max_range sc_array_int.mixed_ops
           sc_array_int.fresh sc_array_int.mixed int_max_ge_8 run_mixed).
Defined.

Lemma reachable_within_max_witness :
  size sc_array_int.mixed <= array_max sc_array_int.sizeof_int SIZE_MAX /\
  cap sc_array_int.mixed <= array_max sc_array_int.sizeof_int SIZE_MAX /\
  cap sc_array_int.mixed * sc_array_int.sizeof_int <= SIZE_MAX.
Proof.
  exact (reachable_within_max sc_array_int.sizeof_int SIZE_MAX
           sizeof_int_pos size_max_range sc_array_int.mixed_ops
           sc_array_int.fresh sc_array_int.mixed int_max_ge_8 run_mixed).
Defined.

Lemma reachable_cap_power_of_two_witness :
  cap sc_array_int.nine = 0 \/
  exists j : nat, cap sc_array_int.nine = 8 * 2 ^ Z.of_nat j.
Proof.
  exact (reachable_cap_power_of_two sc_array_int.sizeof_int SIZE_MAX
           sizeof_int_pos size_max_range sc_array_int.nine_adds
           sc_array_int.fresh sc_array_int.nine run_nine_adds).
Defined.

Lemma cap_monotone_witness :
  cap sc_array_int.fresh <= cap sc_array_int.nine.
Proof.
  apply (cap_monotone sc_array_int.sizeof_int SIZE_MAX sizeof_int_pos
           size_max_range sc_array_int.nine_adds sc_array_int.fresh
           sc_array_int.nine); [reflexivity|done|exact run_nine_adds].
Defined.

Lemma block_kept_witness :
  is_Some (elems (set_oom true (sc_array_clear sc_array_int.five))).
Proof.
  apply (block_kept sc_array_int.sizeof_int SIZE_MAX
           [Clear; Add false 1] sc_array_int.five);
    [reflexivity|by eexists|vm_compute; reflexivity].
Defined.

Lemma appended_cap_bound_witness :
  size sc_array_int.nine = 9 /\
  size sc_array_int.nine <= cap sc_array_int.nine /\
  cap sc_array_int.nine <= Z.max 8 (2 * (size sc_array_int.nine - 1)).
Proof.
  apply (appended_cap_bound sc_array_int.sizeof_int SIZE_MAX
           sizeof_int_pos size_max_range sc_array_int.fresh
           [0; 1; 2; 3; 4; 5; 6; 7; 8]).
  apply add_all_appended. vm_compute. reflexivity.
Defined.

Lemma sc_array_del_del_unordered_witness :
  exists a1 a2 l1 l2,
    sc_array_del sc_array_int.sizeof_int sc_array_int.five 1 = Some a1 /\
    sc_array_del_unordered sc_array_int.five (Val 1) = Some a2 /\
    sc_array_foreach a1 = Some l1 /\ sc_array_foreach a2 = Some l2 /\
    l1 ≡ₚ l2 /\
    sc_array_del_unordered sc_array_int.five size_minus_one = None.
Proof.
  destruct (sc_array_del_del_unordered sc_array_int.sizeof_int
              sizeof_int_pos sc_array_int.five 1 [10; 20; 30; 40; 50]
              wf_five foreach_five)
    as ((a1 & a2 & l1 & l2 & H1 & H2 & H3 & H4 & H5 & _) & Hix); [done|].
  exists a1, a2, l1, l2.
  split; [exact H1|]. split; [exact H2|]. split; [exact H3|].
  split; [exact H4|]. split; [exact H5|]. apply Hix. reflexivity.
Defined.


Lemma sc_array_oom_last_add_witness :
  sc_array_oom
    (mk_array true 8 6
       (Some (Some <$> [11; 12; 13; 14; 15; 16; 16; 17]))) = true.
Proof.
  destruct (sc_array_oom_last_add sc_array_int.sizeof_int SIZE_MAX false
              sc_array_int.full8 18 (set_oom true sc_array_int.full8)
              [DelLast; Del 0]
              (mk_array true 8 6
                 (Some (Some <$> [11; 12; 13; 14; 15; 16; 16; 17]))))
    as [Ho _]; [vm_compute; reflexivity|reflexivity|vm_compute; reflexivity|].
  exact Ho.
Defined.
